(** * runhttp: graceful lifecycle of one HTTP server run

    A shallow embedding of [RunServer] (runhttp.go).  The function is a
    piece of coordination code: it wires a signal subscription, an
    errgroup with two goroutines and a server handle together.  The
    embedding therefore has three layers:

    - Go values the function manipulates: errors with their wrap chains,
      contexts with their cancellation tree, the server handle;
    - the single-threaded prologue of [RunServer] as a function [setup];
    - the concurrent part as a labelled step function [step]: one label
      per atomic action of a goroutine or of the environment (signal,
      caller, network).  A run is a list of labels.

    The behaviour of the packages [RunServer] calls (context, errors,
    os/signal, net/http, errgroup, autocert) follows their documented
    contracts; every such definition says which contract it follows. *)

From Stdlib Require Import List String Bool Arith ZArith Lia.
Import ListNotations.
Open Scope string_scope.

(* ================================================================== *)
(** ** Go errors *)
(* ================================================================== *)

Module GoErr.

(** The package-level error values [RunServer] can meet. They are compared
    by identity in Go, which is what [sentinel_eqb] does. *)
Inductive sentinel : Type :=
  | ErrServerClosed     (* http.ErrServerClosed *)
  | DeadlineExceeded    (* context.DeadlineExceeded *)
  | Canceled.           (* context.Canceled *)

(** A non-nil [error] value: a sentinel, an opaque leaf (errors.New, a
    syscall errno), a wrapper with [Unwrap() error] (fmt.Errorf with %w,
    *net.OpError), or a join with [Unwrap() []error] (errors.Join). *)
#[local] Unset Elimination Schemes.
Inductive error : Type :=
  | Sentinel (s : sentinel)
  | Opaque (msg : string)
  | Wrap (msg : string) (inner : error)
  | Join (errs : list error).
#[local] Set Elimination Schemes.

(** Induction over an error and, through [Join], over its members. *)
Fixpoint error_ind (P : error -> Prop)
    (HS : forall s, P (Sentinel s))
    (HO : forall msg, P (Opaque msg))
    (HW : forall msg inner, P inner -> P (Wrap msg inner))
    (HJ : forall errs, Forall P errs -> P (Join errs))
    (e : error) {struct e} : P e :=
  match e with
  | Sentinel s => HS s
  | Opaque msg => HO msg
  | Wrap msg inner => HW msg inner (error_ind P HS HO HW HJ inner)
  | Join errs =>
      HJ errs ((fix all (l : list error) : Forall P l :=
                  match l with
                  | [] => @Forall_nil error P
                  | x :: l' => @Forall_cons error P x l' (error_ind P HS HO HW HJ x) (all l')
                  end) errs)
  end.

(** Go's [error] interface value: [None] is nil. *)
Definition goerror : Type := option error.

Definition sentinel_eqb (a b : sentinel) : bool :=
  match a, b with
  | ErrServerClosed, ErrServerClosed => true
  | DeadlineExceeded, DeadlineExceeded => true
  | Canceled, Canceled => true
  | _, _ => false
  end.

(** [err == target] for a sentinel target. *)
Definition is_sentinel (err : error) (target : sentinel) : bool :=
  match err with
  | Sentinel s => sentinel_eqb s target
  | _ => false
  end.

(** errors.Is: the error itself, then what it unwraps to, depth first. *)
Fixpoint errors_Is (err : error) (target : sentinel) : bool :=
  is_sentinel err target ||
  match err with
  | Wrap _ inner => errors_Is inner target
  | Join errs => existsb (fun e => errors_Is e target) errs
  | _ => false
  end.

(** [e] occurs in the unwrap tree of the first argument. *)
Inductive in_chain (e : error) : error -> Prop :=
  | chain_here : in_chain e e
  | chain_wrap : forall msg inner, in_chain e inner -> in_chain e (Wrap msg inner)
  | chain_join : forall errs x, In x errs -> in_chain e x -> in_chain e (Join errs).

End GoErr.
Export GoErr.

(* ================================================================== *)
(** ** Contexts *)
(* ================================================================== *)

Module Ctx.

Definition ctx_id : Type := nat.

(** One context object. [parent] is the context it was derived from
    ([None] for a root such as context.Background or the caller's
    context), [err] is what [Err()] returns ([None] until done),
    [deadline] the timeout it was created with, in nanoseconds. *)
Record cnode : Type := mkNode {
  parent : option ctx_id;
  err : goerror;
  deadline : option Z
}.

(** The contexts allocated so far, newest first; the identifier of a node
    is the number of nodes allocated before it. *)
Definition store : Type := list cnode.

Fixpoint node_at (st : store) (c : ctx_id) : option cnode :=
  match st with
  | [] => None
  | n :: older => if Nat.eqb c (List.length older) then Some n else node_at older c
  end.

(** [ctx.Err()]. *)
Definition ctx_Err (st : store) (c : ctx_id) : goerror :=
  match node_at st c with
  | Some n => err n
  | None => None
  end.

(** [ctx.Done()] is closed. *)
Definition ctx_done (st : store) (c : ctx_id) : bool :=
  match ctx_Err st c with Some _ => true | None => false end.

(** Deriving a context (WithCancel, WithTimeout, NotifyContext,
    errgroup.WithContext): a child of an already done parent is created
    done, with the parent's error. *)
Definition derive (st : store) (p : option ctx_id) (d : option Z) : store * ctx_id :=
  let e := match p with Some q => ctx_Err st q | None => None end in
  (mkNode p e d :: st, List.length st).

Definition set_err (e : error) (n : cnode) : cnode :=
  mkNode (parent n) (Some e) (deadline n).

(** What cancelling [c] with [e] does to the node [n] of identifier [i],
    [older'] being the older nodes after the same cancellation: a done
    node keeps its error, [c] itself takes [e], and a child takes the
    error of its parent. *)
Definition cancel_node (older' : store) (i c : ctx_id) (e : error) (n : cnode) : cnode :=
  match err n with
  | Some _ => n
  | None =>
      if Nat.eqb i c then set_err e n
      else match parent n with
           | Some p => match ctx_Err older' p with
                       | Some e' => set_err e' n
                       | None => n
                       end
           | None => n
           end
  end.

(** Cancelling a context: it and all its descendants that are not done
    yet become done. *)
Fixpoint cancel (c : ctx_id) (e : error) (st : store) : store :=
  match st with
  | [] => []
  | n :: older =>
      let older' := cancel c e older in
      cancel_node older' (List.length older) c e n :: older'
  end.

(** Parents are allocated before their children, and a child of a done
    context is done. *)
Fixpoint store_ok (st : store) : Prop :=
  match st with
  | [] => True
  | n :: older =>
      store_ok older /\
      match parent n with
      | Some p => p < List.length older /\ (ctx_done older p = true -> err n <> None)
      | None => True
      end
  end.

(** [a] is [c] or one of its ancestors: fuel is the number of nodes. *)
Fixpoint descends (st : store) (c a : ctx_id) : bool :=
  match st with
  | [] => false
  | n :: older =>
      Nat.eqb c a ||
      if Nat.eqb c (List.length older)
      then match parent n with Some p => descends older p a | None => false end
      else descends older c a
  end.

End Ctx.
Export Ctx.

(* ================================================================== *)
(** ** The autocert manager and the server handle *)
(* ================================================================== *)

Module Handle.

(** AutocertConfig (runhttp.go, lines 17-20). *)
Record AutocertConfig : Type := {
  Domain : string;
  CacheDir : string
}.

(** autocert.AcceptTOS is the only prompt the code uses. *)
Inductive prompt : Type := AcceptTOS.

(** The closure autocert.HostWhitelist returns, as the hosts it was
    called with. *)
Inductive host_policy : Type := HostWhitelist (hosts : list string).

(** autocert.DirCache. *)
Inductive cache : Type := DirCache (dir : string).

(** The fields of autocert.Manager the code sets. *)
Record Manager : Type := {
  Prompt : prompt;
  HostPolicy : host_policy;
  Cache : cache
}.

(** tls.Config, as far as Manager.TLSConfig fills it: the manager whose
    GetCertificate method serves the certificates, and the protocols. *)
Record tls_Config : Type := {
  GetCertificate : option Manager;
  NextProtos : list string
}.

(** The TLSConfig method of autocert.Manager. *)
Definition Manager_TLSConfig (m : Manager) : tls_Config :=
  {| GetCertificate := Some m;
     NextProtos := ["h2"; "http/1.1"; "acme-tls/1"] |}.


Section HostPolicy.
(** idna.Lookup.ToASCII, which HostWhitelist applies to each host; a
    host it refuses is left out of the whitelist. *)
Variable toASCII : string -> option string.

(** The map HostWhitelist builds, as the list of its keys. *)
Fixpoint whitelist_keys (hosts : list string) : list string :=
  match hosts with
  | [] => []
  | h :: rest =>
      match toASCII h with
      | Some a => a :: whitelist_keys rest
      | None => whitelist_keys rest
      end
  end.

(** Calling the policy on a host: nil when the host is a key. *)
Definition policy_check (p : host_policy) (host : string) : goerror :=
  match p with
  | HostWhitelist hosts =>
      if existsb (String.eqb host) (whitelist_keys hosts) then None
      else Some (Opaque ("acme/autocert: host " ++ host ++ " not configured in HostWhitelist"))
  end.

Definition admits (p : host_policy) (host : string) : Prop :=
  policy_check p host = None.
End HostPolicy.

Definition listener : Type := nat.

(** http.Server: the fields the caller sets (Addr), the two [RunServer]
    sets, and the flag Shutdown and Close raise. *)
Record Server : Type := {
  Addr : string;
  TLSConfig : option tls_Config;
  BaseContext : option (listener -> ctx_id);
  inShutdown : bool
}.

Definition set_TLSConfig (c : option tls_Config) (sv : Server) : Server :=
  {| Addr := Addr sv; TLSConfig := c;
     BaseContext := BaseContext sv; inShutdown := inShutdown sv |}.

Definition set_BaseContext (f : option (listener -> ctx_id)) (sv : Server) : Server :=
  {| Addr := Addr sv; TLSConfig := TLSConfig sv;
     BaseContext := f; inShutdown := inShutdown sv |}.

Definition set_inShutdown (b : bool) (sv : Server) : Server :=
  {| Addr := Addr sv; TLSConfig := TLSConfig sv;
     BaseContext := BaseContext sv; inShutdown := b |}.

(** The operation handed to the serve goroutine. *)
Inductive serve_op : Type :=
  | ListenAndServe
  | ListenAndServeTLS (certFile keyFile : string).

(** Lines 26-37: the manager built from the configuration. *)
Definition new_manager (c : AutocertConfig) : Manager :=
  {| Prompt := AcceptTOS;
     HostPolicy := HostWhitelist [Domain c];
     Cache := DirCache (CacheDir c) |}.

(** Lines 26-37: plain or TLS. *)
Definition setup_tls (sv : Server) (crtCfg : option AutocertConfig) : Server * serve_op :=
  match crtCfg with
  | Some c =>
      (set_TLSConfig (Some (Manager_TLSConfig (new_manager c))) sv,
       ListenAndServeTLS EmptyString EmptyString)
  | None => (sv, ListenAndServe)
  end.

End Handle.
Export Handle.

(* ================================================================== *)
(** ** RunServer *)
(* ================================================================== *)

Module Run.

Inductive signal : Type := SIGTERM | SIGINT | SIGHUP.

Definition signal_eqb (a b : signal) : bool :=
  match a, b with
  | SIGTERM, SIGTERM | SIGINT, SIGINT | SIGHUP, SIGHUP => true
  | _, _ => false
  end.

(** How the function of a goroutine ends. *)
Inductive result : Type :=
  | Ret (r : goerror)
  | Panic.

(** The shutdown sequencer (lines 50-60): blocked on [<-ctx.Done()],
    inside [srv.Shutdown] with its timeout context, its function ended,
    and its result handed to the group. *)
Inductive seq_pc : Type :=
  | SeqWaiting
  | SeqDraining (d : ctx_id)
  | SeqExited (r : result)
  | SeqDone (r : goerror).

(** The serve goroutine (line 63). *)
Inductive srv_pc : Type :=
  | SrvServing
  | SrvExited (r : goerror)
  | SrvDone (r : goerror).

(** The calling goroutine: in [threads.Wait()], returned, or gone with the
    process. *)
Inductive main_pc : Type :=
  | MainWaiting
  | MainReturned (r : goerror)
  | MainCrashed.

Record state : Type := mkState {
  ctxs : store;
  srv : Server;
  sig_ctx : ctx_id;          (* ctx of line 40 *)
  grp_ctx : ctx_id;          (* ctx of line 44 *)
  signals : list signal;     (* signals relayed to sig_ctx *)
  releases : nat;            (* runs of the stop function of line 40 *)
  g_err : goerror;           (* the group's err, set once *)
  op : serve_op;             (* listenAndServe *)
  seq : seq_pc;
  lsn : srv_pc;
  main : main_pc;
  seq_closes : nat;          (* runs of the deferred srv.Close() of line 51 *)
  accepted : list ctx_id     (* contexts of the accepted connections *)
}.

Definition with_ctxs (x : store) (s : state) : state :=
  mkState x (srv s) (sig_ctx s) (grp_ctx s) (signals s) (releases s) (g_err s)
          (op s) (seq s) (lsn s) (main s) (seq_closes s) (accepted s).
Definition with_srv (x : Server) (s : state) : state :=
  mkState (ctxs s) x (sig_ctx s) (grp_ctx s) (signals s) (releases s) (g_err s)
          (op s) (seq s) (lsn s) (main s) (seq_closes s) (accepted s).
Definition with_g_err (x : goerror) (s : state) : state :=
  mkState (ctxs s) (srv s) (sig_ctx s) (grp_ctx s) (signals s) (releases s) x
          (op s) (seq s) (lsn s) (main s) (seq_closes s) (accepted s).
Definition with_seq (x : seq_pc) (s : state) : state :=
  mkState (ctxs s) (srv s) (sig_ctx s) (grp_ctx s) (signals s) (releases s) (g_err s)
          (op s) x (lsn s) (main s) (seq_closes s) (accepted s).
Definition with_lsn (x : srv_pc) (s : state) : state :=
  mkState (ctxs s) (srv s) (sig_ctx s) (grp_ctx s) (signals s) (releases s) (g_err s)
          (op s) (seq s) x (main s) (seq_closes s) (accepted s).
Definition with_main (x : main_pc) (s : state) : state :=
  mkState (ctxs s) (srv s) (sig_ctx s) (grp_ctx s) (signals s) (releases s) (g_err s)
          (op s) (seq s) (lsn s) x (seq_closes s) (accepted s).
Definition with_seq_closes (x : nat) (s : state) : state :=
  mkState (ctxs s) (srv s) (sig_ctx s) (grp_ctx s) (signals s) (releases s) (g_err s)
          (op s) (seq s) (lsn s) (main s) x (accepted s).
Definition with_accepted (x : list ctx_id) (s : state) : state :=
  mkState (ctxs s) (srv s) (sig_ctx s) (grp_ctx s) (signals s) (releases s) (g_err s)
          (op s) (seq s) (lsn s) (main s) (seq_closes s) x.
Definition released (s : state) : state :=
  mkState (ctxs s) (srv s) (sig_ctx s) (grp_ctx s) [] (S (releases s)) (g_err s)
          (op s) (seq s) (lsn s) (main s) (seq_closes s) (accepted s).

(** context.Background() and the caller's ctx: the two roots every run
    starts with. *)
Definition background_ctx : ctx_id := 0.
Definition base_ctx : ctx_id := 1.

(** 3*time.Second, a time.Duration in nanoseconds. *)
Definition drain_timeout : Z := 3 * 1000000000.

(** What the caller passes: its context (with what [Err()] returns at the
    time of the call), the server handle and the optional configuration. *)
Record input : Type := {
  base_err : goerror;
  srv0 : Server;
  crtCfg : option AutocertConfig
}.

Definition initial_store (inp : input) : store :=
  [mkNode None (base_err inp) None; mkNode None None None].

(** Lines 26-63: everything [RunServer] does before it blocks in
    [threads.Wait()].  The two goroutines are launched and have not
    taken a step yet. *)
Definition setup (inp : input) : state :=
  let '(sv1, lAS) := setup_tls (srv0 inp) (crtCfg inp) in
  (* ctx, cancel := signal.NotifyContext(ctx, syscall.SIGTERM) *)
  let '(st1, sctx) := derive (initial_store inp) (Some base_ctx) None in
  (* threads, ctx := errgroup.WithContext(ctx) *)
  let '(st2, gctx) := derive st1 (Some sctx) None in
  (* srv.BaseContext = func(net.Listener) context.Context { return ctx } *)
  let sv2 := set_BaseContext (Some (fun _ : listener => gctx)) sv1 in
  {| ctxs := st2; srv := sv2; sig_ctx := sctx; grp_ctx := gctx;
     signals := [SIGTERM]; releases := 0; g_err := None; op := lAS;
     seq := SeqWaiting; lsn := SrvServing; main := MainWaiting;
     seq_closes := 0; accepted := [] |}.

(** Lines 66-69: what [RunServer] makes of the group's error. *)
Definition RunServer_result (err : goerror) : goerror :=
  match err with
  | Some e => if negb (errors_Is e ErrServerClosed) then Some e else None
  | None => None
  end.

(** The wrapper errgroup.Group.Go puts around a function: the first
    non-nil error is kept and cancels the group's context. *)
Definition group_record (r : goerror) (s : state) : state :=
  match r, g_err s with
  | Some e, None =>
      with_ctxs (cancel (grp_ctx s) (Sentinel Canceled) (ctxs s))
                (with_g_err (Some e) s)
  | _, _ => s
  end.

(** http.Server.Close, and the first thing http.Server.Shutdown does:
    the server counts as shutting down from then on. *)
Definition srv_Close (sv : Server) : Server := set_inShutdown true sv.
Definition srv_Shutdown_begin (sv : Server) : Server := set_inShutdown true sv.

(** How a call of [srv.Shutdown(ctx)] ends: the connections went idle
    and it returns what closing the listeners gave, or its context
    expired first and it returns [ctx.Err()], or it panics. *)
Inductive shutdown_outcome : Type :=
  | Drained (lnerr : goerror)
  | TimedOut
  | Panicked.

Definition srv_Shutdown_end (d : ctx_id) (o : shutdown_outcome) (st : store)
  : result * store :=
  match o with
  | Drained lnerr => (Ret lnerr, st)
  | TimedOut =>
      let st' := cancel d (Sentinel DeadlineExceeded) st in
      (Ret (ctx_Err st' d), st')
  | Panicked => (Panic, st)
  end.

(** Lines 56-59 once [srv.Shutdown] ends, with the two deferred calls:
    the timeout context is cancelled, the server is closed, and what
    [srv.Close()] returns ([cerr]) goes nowhere. *)
Definition sequencer_exit (d : ctx_id) (o : shutdown_outcome) (cerr : goerror)
    (s : state) : state :=
  let '(r, st1) := srv_Shutdown_end d o (ctxs s) in
  let st2 := cancel d (Sentinel Canceled) st1 in       (* defer cancel() *)
  let sv := srv_Close (srv s) in                       (* defer srv.Close() *)
  with_seq (SeqExited r)
    (with_seq_closes (S (seq_closes s)) (with_srv sv (with_ctxs st2 s))).

(** Lines 53-59 up to the call of [srv.Shutdown]. *)
Definition sequencer_wake (s : state) : option state :=
  if ctx_done (ctxs s) (grp_ctx s) then
    let '(st', d) := derive (ctxs s) (Some background_ctx) (Some drain_timeout) in
    Some (with_seq (SeqDraining d)
            (with_srv (srv_Shutdown_begin (srv s)) (with_ctxs st' s)))
  else None.

(** [threads.Wait()] returning, lines 66-69, and the deferred [cancel()]
    of line 41, which cancels the signal context and stops the relay. *)
Definition RunServer_return (s : state) : state :=
  let st1 := cancel (grp_ctx s) (Sentinel Canceled) (ctxs s) in
  let out := RunServer_result (g_err s) in
  let st2 := cancel (sig_ctx s) (Sentinel Canceled) st1 in
  with_main (MainReturned out) (released (with_ctxs st2 s)).

(** A connection is accepted: its context derives from what
    [srv.BaseContext] returns for the listener (context.Background when
    the field is nil). *)
Definition accept (ln : listener) (s : state) : state :=
  let b := match BaseContext (srv s) with
           | Some f => f ln
           | None => background_ctx
           end in
  let '(st', c) := derive (ctxs s) (Some b) None in
  with_accepted (c :: accepted s) (with_ctxs st' s).

(** The atomic actions of a run. *)
Inductive label : Type :=
  | Signal (sg : signal)               (* the process receives a signal *)
  | CancelBase (e : error)             (* the caller's ctx becomes done *)
  | ExternalClose                      (* somebody else calls srv.Close() *)
  | Accept (ln : listener)             (* the serve loop accepts a connection *)
  | ServeExit (e : error)              (* listenAndServe returns *)
  | ServeRecord                        (* the group takes its result *)
  | SeqWake                            (* <-ctx.Done() unblocks *)
  | ShutdownExit (o : shutdown_outcome) (cerr : goerror)
  | SeqRecord                          (* the group takes the result *)
  | Wait.                              (* threads.Wait() returns *)

Definition step (l : label) (s : state) : option state :=
  match main s with
  | MainWaiting =>
      match l with
      | Signal sg =>
          if existsb (signal_eqb sg) (signals s)
          then Some (with_ctxs (cancel (sig_ctx s) (Sentinel Canceled) (ctxs s)) s)
          else Some (with_main MainCrashed s)
      | CancelBase e =>
          Some (with_ctxs (cancel base_ctx e (ctxs s)) s)
      | ExternalClose =>
          Some (with_srv (srv_Close (srv s)) s)
      | Accept ln =>
          match lsn s with
          | SrvServing => if inShutdown (srv s) then None else Some (accept ln s)
          | _ => None
          end
      | ServeExit e =>
          match lsn s with
          | SrvServing =>
              let r := if inShutdown (srv s) then Sentinel ErrServerClosed else e in
              Some (with_lsn (SrvExited (Some r)) s)
          | _ => None
          end
      | ServeRecord =>
          match lsn s with
          | SrvExited r => Some (with_lsn (SrvDone r) (group_record r s))
          | _ => None
          end
      | SeqWake =>
          match seq s with
          | SeqWaiting => sequencer_wake s
          | _ => None
          end
      | ShutdownExit o cerr =>
          match seq s with
          | SeqDraining d => Some (sequencer_exit d o cerr s)
          | _ => None
          end
      | SeqRecord =>
          match seq s with
          | SeqExited (Ret r) => Some (with_seq (SeqDone r) (group_record r s))
          | SeqExited Panic => Some (with_main MainCrashed s)
          | _ => None
          end
      | Wait =>
          match seq s, lsn s with
          | SeqDone _, SrvDone _ => Some (RunServer_return s)
          | _, _ => None
          end
      end
  | _ => None
  end.

(** A run: the labels taken, in order. *)
Fixpoint run (ls : list label) (s : state) : option state :=
  match ls with
  | [] => Some s
  | l :: rest =>
      match step l s with
      | Some s' => run rest s'
      | None => None
      end
  end.

(** What the call returned at the end of the run [ls], if the labels can
    be taken in that order and [RunServer] has returned by then. *)
Definition RunServer (inp : input) (ls : list label) : option goerror :=
  match run ls (setup inp) with
  | Some s => match main s with
              | MainReturned out => Some out
              | _ => None
              end
  | None => None
  end.

(** What the sequencer's function returned, once it has. *)
Definition seq_result (s : state) : option result :=
  match seq s with
  | SeqExited r => Some r
  | SeqDone r => Some (Ret r)
  | _ => None
  end.

(** What listenAndServe returned, once it has. *)
Definition serve_result (s : state) : option goerror :=
  match lsn s with
  | SrvExited r | SrvDone r => Some r
  | SrvServing => None
  end.

End Run.
Export Run.

(* ================================================================== *)
(** ** Invariants and schedules *)
(* ================================================================== *)

Module Inv.

(** The contexts of a run: the two roots, the signal context under the
    caller's, the group context under the signal context, and the
    contexts of the connections under the group context. *)
Record ctx_inv (st : store) (acc : list ctx_id) : Prop := {
  ci_ok : store_ok st;
  ci_bg : node_at st background_ctx = Some (mkNode None None None);
  ci_base : exists n, node_at st base_ctx = Some n /\ parent n = None;
  ci_sig : exists n, node_at st 2 = Some n /\ parent n = Some base_ctx;
  ci_grp : exists n, node_at st 3 = Some n /\ parent n = Some 2;
  ci_acc : forall c, In c acc ->
             exists n, node_at st c = Some n /\ parent n = Some 3
}.

(** The timeout context of the sequencer while [srv.Shutdown] runs. *)
Definition drain_node : cnode :=
  mkNode (Some background_ctx) None (Some drain_timeout).

(** What holds in every state of every run. *)
Record inv (s : state) : Prop := {
  inv_ctx : ctx_inv (ctxs s) (accepted s);
  inv_sig : sig_ctx s = 2;
  inv_grp : grp_ctx s = 3;
  inv_factory : exists f, BaseContext (srv s) = Some f /\
                          forall ln, f ln = grp_ctx s;
  inv_seq : match seq s with
            | SeqWaiting => seq_closes s = 0
            | SeqDraining d =>
                seq_closes s = 0 /\
                node_at (ctxs s) d = Some drain_node /\
                ctx_done (ctxs s) (grp_ctx s) = true /\
                inShutdown (srv s) = true
            | SeqExited _ | SeqDone _ =>
                seq_closes s = 1 /\
                ctx_done (ctxs s) (grp_ctx s) = true /\
                inShutdown (srv s) = true
            end;
  inv_gerr : match g_err s with
             | Some e =>
                 ctx_done (ctxs s) (grp_ctx s) = true /\
                 (lsn s = SrvDone (Some e) \/ seq s = SeqDone (Some e))
             | None =>
                 (forall r, lsn s = SrvDone r -> r = None) /\
                 (forall r, seq s = SeqDone r -> r = None)
             end;
  inv_lsn : forall r, serve_result s = Some r -> r <> None;
  inv_main : match main s with
             | MainWaiting => signals s = [SIGTERM] /\ releases s = 0
             | MainReturned out =>
                 signals s = [] /\ releases s = 1 /\
                 out = RunServer_result (g_err s) /\
                 ctx_done (ctxs s) (sig_ctx s) = true /\
                 exists a b, seq s = SeqDone a /\ lsn s = SrvDone b
             | MainCrashed => True
             end
}.

(** The same label with what [srv.Close()] returned forgotten. *)
Definition forget_close (l : label) : label :=
  match l with
  | ShutdownExit o _ => ShutdownExit o None
  | _ => l
  end.

(** The labels that take a run to its end once the group context is
    done, with no help from outside but the timeout of the drain: the
    sequencer wakes, [srv.Shutdown] hits its deadline, the group takes the
    result, [threads.Wait()] returns. *)
Definition finish_schedule (s : state) : list label :=
  match seq s with
  | SeqWaiting => [SeqWake; ShutdownExit TimedOut None; SeqRecord; Wait]
  | SeqDraining _ => [ShutdownExit TimedOut None; SeqRecord; Wait]
  | SeqExited _ => [SeqRecord; Wait]
  | SeqDone _ => [Wait]
  end.

(** A server as a caller hands it over, and the two ways to call. *)
Definition plain_server : Server :=
  {| Addr := ":8080"; TLSConfig := None; BaseContext := None;
     inShutdown := false |}.

Definition example_cfg : AutocertConfig :=
  {| Domain := "example.org"; CacheDir := "/var/cache/certs" |}.

Definition plain_input : input :=
  {| base_err := None; srv0 := plain_server; crtCfg := None |}.


Definition cancelled_input : input :=
  {| base_err := Some (Sentinel Canceled); srv0 := plain_server; crtCfg := None |}.


Definition accept_error : error :=
  Wrap "accept tcp [::]:8080" (Opaque "accept4: invalid argument").

(** The server is closed by somebody else and drains at once. *)
Definition run_self_close : list label :=
  [Accept 0; ExternalClose; ServeExit accept_error; ServeRecord; SeqWake;
   ShutdownExit (Drained None) None; SeqRecord; Wait].

(** SIGTERM, a connection that stays busy beyond the deadline. *)
Definition run_sigterm_timeout : list label :=
  [Accept 0; Signal SIGTERM; SeqWake; ServeExit accept_error; ServeRecord;
   ShutdownExit TimedOut None; SeqRecord; Wait].


(** Accept fails for good just before SIGTERM arrives, and the
    sequencer's timeout reaches the group before the failure does. *)
Definition run_failure_loses_race : list label :=
  [Accept 0; ServeExit accept_error; Signal SIGTERM; SeqWake;
   ShutdownExit TimedOut None; SeqRecord; ServeRecord; Wait].

(** The labels that can set a shutdown off: a signal, the caller's
    context becoming done, the group taking the result of the serve
    operation. [quiet] holds of every other label. *)
Definition quiet (l : label) : bool :=
  match l with
  | Signal _ | CancelBase _ | ServeRecord => false
  | _ => true
  end.

(** The labels that are steps of the program itself once a shutdown is
    under way: the sequencer waking, the serve operation returning, the
    drain ending at its deadline, the group taking a result, and
    [threads.Wait()] returning. *)
Definition internal (l : label) : bool :=
  match l with
  | SeqWake | ServeExit _ | ServeRecord | SeqRecord | Wait => true
  | ShutdownExit TimedOut _ => true
  | _ => false
  end.

(** SIGTERM has arrived, the drain stays busy until its deadline, and
    the sequencer's error reaches the group before the serve
    operation's http.ErrServerClosed does. *)
Definition run_timeout_recorded_first : list label :=
  [Accept 0; Signal SIGTERM; SeqWake; ShutdownExit TimedOut None; SeqRecord;
   ServeExit accept_error; ServeRecord; Wait].

End Inv.
Export Inv.

(* ================================================================== *)
(** ** Facts about errors *)
(* ================================================================== *)

Section ErrorFacts.

Lemma sentinel_eqb_eq (a b : sentinel) : sentinel_eqb a b = true <-> a = b.
Proof. destruct a, b; simpl; split; congruence. Qed.

(** errors.Is finds the target exactly when it occurs in the unwrap
    tree. *)
Lemma errors_Is_in_chain (t : sentinel) (e : error) :
  errors_Is e t = true <-> in_chain (Sentinel t) e.
Proof.
  induction e as [s | msg | msg inner IH | errs IH] using error_ind.
  - simpl. rewrite orb_false_r, sentinel_eqb_eq. split.
    + intros ->. constructor.
    + intros H. inversion H. reflexivity.
  - simpl. split; [discriminate | intros H; inversion H].
  - simpl. rewrite IH. split.
    + intros H. now constructor.
    + intros H. inversion H; subst; assumption.
  - simpl. rewrite existsb_exists. split.
    + intros (x & Hin & Hx). rewrite Forall_forall in IH.
      apply chain_join with x; [assumption | now apply IH].
    + intros H. inversion H; subst. rewrite Forall_forall in IH.
      exists x. split; [assumption | now apply IH].
Qed.

End ErrorFacts.

(* ================================================================== *)
(** ** Facts about the context store *)
(* ================================================================== *)

Section StoreFacts.

Lemma cancel_length c e st : List.length (cancel c e st) = List.length st.
Proof. induction st as [| n older IH]; simpl; congruence. Qed.

Lemma node_at_lt st c n : node_at st c = Some n -> c < List.length st.
Proof.
  induction st as [| x older IH]; simpl; [discriminate |].
  destruct (Nat.eqb_spec c (List.length older)); intros H.
  - lia.
  - apply IH in H. lia.
Qed.

Lemma node_at_cons_old x st c :
  c < List.length st -> node_at (x :: st) c = node_at st c.
Proof.
  intros H. simpl. destruct (Nat.eqb_spec c (List.length st)); [lia | reflexivity].
Qed.

Lemma ctx_Err_cons_old x st c :
  c < List.length st -> ctx_Err (x :: st) c = ctx_Err st c.
Proof. intros H. unfold ctx_Err. now rewrite node_at_cons_old. Qed.

Lemma ctx_done_cons_old x st c :
  c < List.length st -> ctx_done (x :: st) c = ctx_done st c.
Proof. intros H. unfold ctx_done. now rewrite ctx_Err_cons_old. Qed.

Lemma cancel_node_parent older i c e n :
  parent (cancel_node older i c e n) = parent n.
Proof.
  destruct n as [p er d]. unfold cancel_node. simpl.
  destruct er; [reflexivity |].
  destruct (Nat.eqb i c); [reflexivity |].
  destruct p as [p |]; [| reflexivity].
  destruct (ctx_Err older p); reflexivity.
Qed.

Lemma cancel_node_deadline older i c e n :
  deadline (cancel_node older i c e n) = deadline n.
Proof.
  destruct n as [p er d]. unfold cancel_node. simpl.
  destruct er; [reflexivity |].
  destruct (Nat.eqb i c); [reflexivity |].
  destruct p as [p |]; [| reflexivity].
  destruct (ctx_Err older p); reflexivity.
Qed.

Lemma cancel_node_keeps older i c e n x :
  err n = Some x -> cancel_node older i c e n = n.
Proof. unfold cancel_node. now intros ->. Qed.

(** Cancelling changes neither parents nor deadlines. *)
Lemma node_at_cancel st c e i n :
  node_at st i = Some n ->
  exists n', node_at (cancel c e st) i = Some n' /\
             parent n' = parent n /\ deadline n' = deadline n.
Proof.
  induction st as [| x older IH]; simpl; [discriminate |].
  rewrite cancel_length.
  destruct (Nat.eqb_spec i (List.length older)); intros H.
  - injection H as <-. eexists. split; [reflexivity |].
    now rewrite cancel_node_parent, cancel_node_deadline.
  - now apply IH.
Qed.

(** Once done, always done, with the same error. *)
Lemma cancel_keeps_err st c e i x :
  ctx_Err st i = Some x -> ctx_Err (cancel c e st) i = Some x.
Proof.
  unfold ctx_Err. induction st as [| n older IH]; simpl; [discriminate |].
  rewrite cancel_length.
  destruct (Nat.eqb_spec i (List.length older)); intros H.
  - erewrite cancel_node_keeps by eassumption. assumption.
  - now apply IH.
Qed.

Lemma cancel_keeps_done st c e i :
  ctx_done st i = true -> ctx_done (cancel c e st) i = true.
Proof.
  unfold ctx_done. destruct (ctx_Err st i) eqn:E; [| discriminate].
  intros _. now rewrite (cancel_keeps_err st c e i e0 E).
Qed.

(** The cancelled context is done afterwards. *)
Lemma cancel_self_done st c e :
  c < List.length st -> ctx_done (cancel c e st) c = true.
Proof.
  unfold ctx_done, ctx_Err.
  induction st as [| n older IH]; simpl; [lia |].
  rewrite cancel_length.
  destruct (Nat.eqb_spec c (List.length older)) as [-> | Hne]; intros H.
  - unfold cancel_node. destruct (err n) eqn:E; [now rewrite E |].
    now rewrite Nat.eqb_refl.
  - apply IH. lia.
Qed.

(** A context that was not done takes the error it is cancelled with. *)
Lemma cancel_self_err st c e :
  c < List.length st -> ctx_Err st c = None ->
  ctx_Err (cancel c e st) c = Some e.
Proof.
  unfold ctx_Err.
  induction st as [| n older IH]; simpl; [lia |].
  rewrite cancel_length.
  destruct (Nat.eqb_spec c (List.length older)) as [-> | Hne]; intros H E.
  - unfold cancel_node. rewrite E. now rewrite Nat.eqb_refl.
  - apply IH; [lia | assumption].
Qed.

Lemma store_ok_cancel st c e : store_ok st -> store_ok (cancel c e st).
Proof.
  induction st as [| n older IH]; simpl; [trivial |].
  intros [Hok Hn]. split; [now apply IH |].
  rewrite cancel_node_parent, cancel_length.
  destruct (parent n) as [p |] eqn:Ep; [| trivial].
  destruct Hn as [Hlt Hdone]. split; [assumption |].
  intros Hp. unfold cancel_node.
  destruct (err n) eqn:En; [congruence |].
  destruct (Nat.eqb (List.length older) c); [simpl; congruence |].
  rewrite Ep. unfold ctx_done in Hp.
  destruct (ctx_Err (cancel c e older) p); [simpl; congruence | discriminate].
Qed.

Lemma store_ok_derive st p d :
  store_ok st -> p < List.length st -> store_ok (fst (derive st (Some p) d)).
Proof.
  intros Hok Hlt. simpl. split; [assumption |]. split; [assumption |].
  unfold ctx_done. destruct (ctx_Err st p); [congruence | discriminate].
Qed.

(** Parents are older than their children. *)
Lemma store_ok_parent_lt st i n p :
  store_ok st -> node_at st i = Some n -> parent n = Some p -> p < i.
Proof.
  induction st as [| x older IH]; simpl; [discriminate |].
  intros [Hok Hx] Hi Hp.
  destruct (Nat.eqb_spec i (List.length older)) as [-> | Hne].
  - injection Hi as ->. rewrite Hp in Hx. lia.
  - now apply IH.
Qed.

(** In a well-formed store a child of a done context is done. *)
Lemma child_done st i n p :
  store_ok st -> node_at st i = Some n -> parent n = Some p ->
  ctx_done st p = true -> ctx_done st i = true.
Proof.
  induction st as [| x older IH]; simpl; [discriminate |].
  intros [Hok Hx] Hi Hp Hd.
  destruct (Nat.eqb_spec i (List.length older)) as [-> | Hne].
  - injection Hi as ->. rewrite Hp in Hx. destruct Hx as [Hlt Himp].
    rewrite ctx_done_cons_old in Hd by assumption.
    unfold ctx_done, ctx_Err. simpl. rewrite Nat.eqb_refl.
    destruct (err n); [reflexivity | now elim (Himp Hd)].
  - assert (Hi' := node_at_lt older i n Hi).
    assert (Hplt := store_ok_parent_lt older i n p Hok Hi Hp).
    rewrite ctx_done_cons_old in Hd by lia.
    rewrite ctx_done_cons_old by assumption.
    eapply IH; eauto.
Qed.

Lemma descends_cons_old x st i a :
  i < List.length st -> descends (x :: st) i a = descends st i a || Nat.eqb i a.
Proof.
  intros H. simpl. destruct (Nat.eqb_spec i (List.length st)); [lia |].
  destruct (Nat.eqb i a) eqn:E; [now rewrite orb_true_r |].
  now rewrite orb_false_r.
Qed.

(** Cancelling a context leaves alone what does not descend from it. *)
Lemma cancel_other st c e i :
  store_ok st -> descends st i c = false ->
  node_at (cancel c e st) i = node_at st i.
Proof.
  revert i. induction st as [| n older IH]; simpl; [reflexivity |].
  intros i [Hok Hn] Hd. rewrite cancel_length.
  apply orb_false_iff in Hd. destruct Hd as [Hic Hd].
  destruct (Nat.eqb_spec i (List.length older)) as [-> | Hne].
  - f_equal. unfold cancel_node.
    destruct (err n) eqn:En; [reflexivity |].
    rewrite Hic.
    destruct (parent n) as [p |]; [| reflexivity].
    destruct Hn as [Hlt Himp].
    unfold ctx_Err. rewrite (IH _ Hok Hd).
    unfold ctx_done, ctx_Err in Himp.
    destruct (node_at older p) as [pn |]; [| reflexivity].
    destruct (err pn); [| reflexivity].
    now elim (Himp eq_refl).
  - now apply IH.
Qed.

End StoreFacts.

Section Ancestors.

Lemma descends_self st i a :
  i < List.length st -> descends st i a || Nat.eqb i a = descends st i a.
Proof.
  destruct st as [| x older]; simpl; [lia |]. intros _.
  destruct (Nat.eqb i a); simpl; [reflexivity | apply orb_false_r].
Qed.

Lemma descends_cons x st i a :
  descends (x :: st) i a =
  Nat.eqb i a ||
    if Nat.eqb i (List.length st)
    then match parent x with
         | Some p => descends st p a
         | None => false
         end
    else descends st i a.
Proof. reflexivity. Qed.

(** [descends] follows the parent links. *)
Lemma descends_unfold st i a n :
  store_ok st -> node_at st i = Some n ->
  descends st i a =
  Nat.eqb i a || match parent n with
                 | Some p => descends st p a
                 | None => false
                 end.
Proof.
  induction st as [| x older IH]; [discriminate |].
  intros Hok Hi.
  assert (Hlt : forall p, parent n = Some p -> p < i)
    by (intros p Hp; eapply store_ok_parent_lt; eauto).
  assert (Hi' := node_at_lt _ _ _ Hi).
  destruct Hok as [Hok Hx]. simpl in Hi, Hi'.
  rewrite descends_cons.
  destruct (Nat.eqb_spec i (List.length older)) as [-> | Hne].
  - injection Hi as ->.
    destruct (parent n) as [p |] eqn:Ep; [| reflexivity].
    specialize (Hlt p eq_refl).
    rewrite descends_cons_old by assumption.
    now rewrite descends_self by assumption.
  - rewrite (IH Hok Hi).
    destruct (parent n) as [p |] eqn:Ep.
    + specialize (Hlt p eq_refl).
      rewrite descends_cons_old by lia.
      rewrite descends_self by lia.
      now rewrite orb_assoc, orb_diag.
    + now rewrite orb_assoc, orb_diag.
Qed.

(** A root descends from nothing but itself. *)
Lemma descends_root st i a n :
  store_ok st -> node_at st i = Some n -> parent n = None ->
  descends st i a = Nat.eqb i a.
Proof.
  intros Hok Hi Hp. rewrite (descends_unfold st i a n Hok Hi), Hp.
  apply orb_false_r.
Qed.

(** A child of a root descends from itself and from that root. *)
Lemma descends_child_of_root st i a n p pn :
  store_ok st -> node_at st i = Some n -> parent n = Some p ->
  node_at st p = Some pn -> parent pn = None ->
  descends st i a = Nat.eqb i a || Nat.eqb p a.
Proof.
  intros Hok Hi Hp Hpn Hpp.
  rewrite (descends_unfold st i a n Hok Hi), Hp.
  now rewrite (descends_root st p a pn Hok Hpn Hpp).
Qed.

End Ancestors.

(* ================================================================== *)
(** ** Invariants of a run *)
(* ================================================================== *)

Section RunInvariants.

Lemma ctx_inv_cancel st acc c e :
  ctx_inv st acc -> c <> background_ctx -> ctx_inv (cancel c e st) acc.
Proof.
  intros [Hok Hbg Hb Hs Hg Ha] Hc. split.
  - now apply store_ok_cancel.
  - rewrite cancel_other; [assumption | assumption |].
    rewrite (descends_root st _ c _ Hok Hbg eq_refl).
    apply Nat.eqb_neq. unfold background_ctx in *. lia.
  - destruct Hb as (n & Hn & Hp).
    destruct (node_at_cancel st c e _ n Hn) as (n' & H1 & H2 & _).
    exists n'. split; congruence.
  - destruct Hs as (n & Hn & Hp).
    destruct (node_at_cancel st c e _ n Hn) as (n' & H1 & H2 & _).
    exists n'. split; congruence.
  - destruct Hg as (n & Hn & Hp).
    destruct (node_at_cancel st c e _ n Hn) as (n' & H1 & H2 & _).
    exists n'. split; congruence.
  - intros k Hk. destruct (Ha k Hk) as (n & Hn & Hp).
    destruct (node_at_cancel st c e _ n Hn) as (n' & H1 & H2 & _).
    exists n'. split; congruence.
Qed.

Lemma ctx_inv_derive st acc p d :
  ctx_inv st acc -> p < List.length st ->
  ctx_inv (fst (derive st (Some p) d)) acc.
Proof.
  intros [Hok Hbg Hb Hs Hg Ha] Hp.
  assert (Hold : forall i n, node_at st i = Some n ->
            node_at (fst (derive st (Some p) d)) i = Some n).
  { intros i n Hi. simpl fst. rewrite node_at_cons_old; [assumption |].
    eapply node_at_lt; eauto. }
  split.
  - now apply store_ok_derive.
  - now apply Hold.
  - destruct Hb as (n & Hn & Hq). exists n. split; [now apply Hold | assumption].
  - destruct Hs as (n & Hn & Hq). exists n. split; [now apply Hold | assumption].
  - destruct Hg as (n & Hn & Hq). exists n. split; [now apply Hold | assumption].
  - intros k Hk. destruct (Ha k Hk) as (n & Hn & Hq).
    exists n. split; [now apply Hold | assumption].
Qed.

(** A connection accepted through a factory that returns the group
    context joins the connections under the group context. *)
Lemma ctx_inv_accept st acc :
  ctx_inv st acc ->
  ctx_inv (fst (derive st (Some 3) None))
          (snd (derive st (Some 3) None) :: acc).
Proof.
  intros H.
  assert (H3 : 3 < List.length st).
  { destruct (ci_grp _ _ H) as (n & Hn & _). eapply node_at_lt; eauto. }
  destruct (ctx_inv_derive st acc 3 None H H3) as [Hok Hbg Hb Hs Hg Ha].
  split; try assumption.
  intros k [<- | Hk]; [| now apply Ha].
  simpl. rewrite Nat.eqb_refl. eexists. split; reflexivity.
Qed.

Lemma drain_node_stays st acc d c e :
  ctx_inv st acc -> node_at st d = Some drain_node ->
  c <> background_ctx -> c <> d ->
  node_at (cancel c e st) d = Some drain_node.
Proof.
  intros H Hd Hc Hcd.
  rewrite cancel_other; [assumption | apply (ci_ok _ _ H) |].
  rewrite (descends_child_of_root st d c drain_node background_ctx
             (mkNode None None None) (ci_ok _ _ H) Hd eq_refl (ci_bg _ _ H) eq_refl).
  apply orb_false_iff. split; apply Nat.eqb_neq; congruence.
Qed.

(** The timeout context is none of the caller's, the signal and the
    group context. *)
Lemma drain_node_fresh st acc d :
  ctx_inv st acc -> node_at st d = Some drain_node ->
  d <> base_ctx /\ d <> 2 /\ d <> 3.
Proof.
  intros [Hok Hbg (n1 & H1 & P1) (n2 & H2 & P2) (n3 & H3 & P3) Ha] Hd.
  repeat split; intros ->.
  - rewrite H1 in Hd. injection Hd as ->. discriminate.
  - rewrite H2 in Hd. injection Hd as ->. discriminate.
  - rewrite H3 in Hd. injection Hd as ->. discriminate.
Qed.

Lemma ctx_done_derive st p d c :
  ctx_done st c = true -> ctx_done (fst (derive st p d)) c = true.
Proof.
  intros H. simpl. rewrite ctx_done_cons_old; [assumption |].
  unfold ctx_done, ctx_Err in H.
  destruct (node_at st c) eqn:E; [| discriminate].
  eapply node_at_lt; eauto.
Qed.

End RunInvariants.

Section Reachability.

Lemma grp_lt s : inv s -> grp_ctx s < List.length (ctxs s).
Proof.
  intros H. rewrite (inv_grp _ H).
  destruct (ci_grp _ _ (inv_ctx _ H)) as (n & Hn & _).
  eapply node_at_lt; eauto.
Qed.

Lemma sig_lt s : inv s -> sig_ctx s < List.length (ctxs s).
Proof.
  intros H. rewrite (inv_sig _ H).
  destruct (ci_sig _ _ (inv_ctx _ H)) as (n & Hn & _).
  eapply node_at_lt; eauto.
Qed.

(** The group context is a child of the signal context, which is a
    child of the caller's: done above means done below. *)
Lemma sig_done_grp_done s :
  inv s -> ctx_done (ctxs s) (sig_ctx s) = true ->
  ctx_done (ctxs s) (grp_ctx s) = true.
Proof.
  intros H Hd. rewrite (inv_grp _ H). rewrite (inv_sig _ H) in Hd.
  destruct (ci_grp _ _ (inv_ctx _ H)) as (n & Hn & Hp).
  eapply child_done; eauto. apply (ci_ok _ _ (inv_ctx _ H)).
Qed.

Lemma base_done_sig_done s :
  inv s -> ctx_done (ctxs s) base_ctx = true ->
  ctx_done (ctxs s) (sig_ctx s) = true.
Proof.
  intros H Hd. rewrite (inv_sig _ H).
  destruct (ci_sig _ _ (inv_ctx _ H)) as (n & Hn & Hp).
  eapply child_done; eauto. apply (ci_ok _ _ (inv_ctx _ H)).
Qed.

Lemma inv_setup inp : inv (setup inp).
Proof.
  unfold setup. destruct (setup_tls (srv0 inp) (crtCfg inp)) as [sv1 lAS].
  simpl. split; simpl; try (split; reflexivity); try reflexivity.
  - split; simpl.
    + unfold base_ctx.
      repeat split; try lia; unfold ctx_done, ctx_Err; simpl;
        destruct (base_err inp); simpl; congruence.
    + reflexivity.
    + eexists; split; reflexivity.
    + eexists; split; reflexivity.
    + eexists; split; reflexivity.
    + intros c [].
  - eexists. split; [reflexivity | reflexivity].
  - split; discriminate.
  - discriminate.
Qed.

(** Cancelling any context but the background and the sequencer's
    own timeout context keeps the invariant. *)
Lemma inv_cancel s c e :
  inv s -> c <> background_ctx ->
  (forall d, seq s = SeqDraining d -> c <> d) ->
  inv (with_ctxs (cancel c e (ctxs s)) s).
Proof.
  intros H Hc Hd. destruct H as [Hctx Hsig Hgrp Hf Hseq Hg Hl Hm].
  split; simpl; try assumption.
  - now apply ctx_inv_cancel.
  - destruct (seq s) as [| d | r | r]; try assumption.
    + destruct Hseq as (H1 & H2 & H3 & H4). repeat split; try assumption.
      * eapply drain_node_stays; eauto.
      * now apply cancel_keeps_done.
    + destruct Hseq as (H1 & H2 & H3). repeat split; try assumption.
      now apply cancel_keeps_done.
    + destruct Hseq as (H1 & H2 & H3). repeat split; try assumption.
      now apply cancel_keeps_done.
  - destruct (g_err s); [| assumption].
    destruct Hg as [H1 H2]. split; [now apply cancel_keeps_done | assumption].
  - destruct (main s); try assumption.
    destruct Hm as (H1 & H2 & H3 & H4 & H5). repeat split; try assumption.
    now apply cancel_keeps_done.
Qed.

Lemma inv_draining_fresh s d :
  inv s -> seq s = SeqDraining d ->
  d <> background_ctx /\ d <> base_ctx /\ d <> sig_ctx s /\ d <> grp_ctx s.
Proof.
  intros H Hd. assert (Hseq := inv_seq _ H). rewrite Hd in Hseq.
  destruct Hseq as (_ & Hn & _).
  destruct (drain_node_fresh _ _ d (inv_ctx _ H) Hn) as (F1 & F2 & F3).
  rewrite (inv_sig _ H), (inv_grp _ H). repeat split; try assumption.
  intros ->. rewrite (ci_bg _ _ (inv_ctx _ H)) in Hn. discriminate.
Qed.

(** The group taking a result: nothing happens unless it is the first
    non-nil error. *)
Lemma group_record_cases r s :
  (group_record r s = s /\ (r = None \/ g_err s <> None)) \/
  (exists e, r = Some e /\ g_err s = None /\
     group_record r s =
     with_ctxs (cancel (grp_ctx s) (Sentinel Canceled) (ctxs s))
               (with_g_err (Some e) s)).
Proof.
  unfold group_record. destruct r as [e |]; [| left; auto].
  destruct (g_err s) eqn:E; [left; split; [reflexivity | right; discriminate] |].
  right. exists e. auto.
Qed.

Lemma inv_serve_record s r :
  inv s -> lsn s = SrvExited r ->
  inv (with_lsn (SrvDone r) (group_record r s)).
Proof.
  intros H Hl.
  assert (Hr : r <> None) by (apply (inv_lsn _ H); unfold serve_result; now rewrite Hl).
  destruct (group_record_cases r s) as [[-> Hc] | (e & -> & Hg & ->)].
  - destruct Hc as [Hc | Hc]; [contradiction |].
    destruct H as [Hctx Hsig Hgrp Hf Hseq Hge Hls Hm].
    split; simpl; try assumption.
    + destruct (g_err s) as [e0 |]; [| congruence].
      destruct Hge as [H1 [H2 | H2]]; [| auto]. congruence.
    + intros x Hx. injection Hx as <-. assumption.
    + destruct (main s); try assumption.
      destruct Hm as (_ & _ & _ & _ & a & b & _ & Hb). congruence.
  - assert (Hi := inv_cancel s (grp_ctx s) (Sentinel Canceled) H).
    destruct Hi as [Hctx Hsig Hgrp Hf Hseq Hge Hls Hm].
    { rewrite (inv_grp _ H). discriminate. }
    { intros d Hd. destruct (inv_draining_fresh s d H Hd) as (_ & _ & _ & F).
      congruence. }
    simpl in *. split; simpl; try assumption.
    + split; [| now left]. apply cancel_self_done. now apply grp_lt.
    + intros x Hx. injection Hx as <-. discriminate.
    + destruct (main s); try assumption.
      destruct Hm as (_ & _ & _ & _ & a & b & _ & Hb). congruence.
Qed.

Lemma inv_seq_record s r :
  inv s -> seq s = SeqExited (Ret r) ->
  inv (with_seq (SeqDone r) (group_record r s)).
Proof.
  intros H Hl.
  destruct (group_record_cases r s) as [[-> Hc] | (e & -> & Hg & ->)].
  - destruct H as [Hctx Hsig Hgrp Hf Hseq Hge Hls Hm].
    split; simpl; try assumption.
    + now rewrite Hl in Hseq.
    + destruct (g_err s) as [e0 |].
      * destruct Hge as [H1 [H2 | H2]]; [auto | congruence].
      * destruct Hge as [H1 H2]. split; [assumption |].
        intros x Hx. injection Hx as <-. destruct Hc; congruence.
    + destruct (main s); try assumption.
      destruct Hm as (_ & _ & _ & _ & a & b & Ha & _). congruence.
  - assert (Hi := inv_cancel s (grp_ctx s) (Sentinel Canceled) H).
    destruct Hi as [Hctx Hsig Hgrp Hf Hseq Hge Hls Hm].
    { rewrite (inv_grp _ H). discriminate. }
    { intros d Hd. congruence. }
    simpl in *. split; simpl; try assumption.
    + now rewrite Hl in Hseq.
    + split; [| now right]. apply cancel_self_done. now apply grp_lt.
    + destruct (main s); try assumption.
      destruct Hm as (_ & _ & _ & _ & a & b & Ha & _). congruence.
Qed.

Lemma inv_accept s ln :
  inv s -> inv (accept ln s).
Proof.
  intros H. unfold accept.
  destruct (inv_factory _ H) as (f & -> & Hfl). rewrite Hfl, (inv_grp _ H).
  assert (Hacc := ctx_inv_accept _ _ (inv_ctx _ H)).
  destruct H as [Hctx Hsig Hgrp Hf Hseq Hge Hls Hm].
  simpl in *. split; simpl; try assumption.
  - destruct (seq s) as [| d | r | r]; try assumption.
    + destruct Hseq as (H1 & H2 & H3 & H4). repeat split; try assumption.
      * apply node_at_lt in H2 as Hlt.
        destruct (Nat.eqb_spec d (List.length (ctxs s))); [lia | assumption].
      * now apply (ctx_done_derive (ctxs s) (Some 3) None).
    + destruct Hseq as (H1 & H2 & H3). repeat split; try assumption.
      now apply (ctx_done_derive (ctxs s) (Some 3) None).
    + destruct Hseq as (H1 & H2 & H3). repeat split; try assumption.
      now apply (ctx_done_derive (ctxs s) (Some 3) None).
  - destruct (g_err s); [| assumption].
    destruct Hge as [H1 H2]. split; [| assumption].
    now apply (ctx_done_derive (ctxs s) (Some 3) None).
  - destruct (main s); try assumption.
    destruct Hm as (H1 & H2 & H3 & H4 & H5). repeat split; try assumption.
    now apply (ctx_done_derive (ctxs s) (Some 3) None).
Qed.

Lemma inv_sequencer_wake s s' :
  inv s -> seq s = SeqWaiting -> sequencer_wake s = Some s' -> inv s'.
Proof.
  intros H Hs Hw. unfold sequencer_wake in Hw.
  destruct (ctx_done (ctxs s) (grp_ctx s)) eqn:Hd; [| discriminate].
  injection Hw as <-.
  assert (Hbg := ci_bg _ _ (inv_ctx _ H)).
  assert (H0 : background_ctx < List.length (ctxs s))
    by (eapply node_at_lt; eauto).
  assert (Hder := ctx_inv_derive _ _ background_ctx (Some drain_timeout)
                    (inv_ctx _ H) H0).
  destruct H as [Hctx Hsig Hgrp Hf Hseq Hge Hls Hm].
  simpl in *. split; simpl; try assumption.
  - rewrite Hs in Hseq. repeat split; try assumption.
    + rewrite Nat.eqb_refl. unfold ctx_Err. now rewrite Hbg.
    + now apply (ctx_done_derive (ctxs s) (Some background_ctx) (Some drain_timeout)).
  - destruct (g_err s) as [e |].
    + destruct Hge as [H1 [H2 | H2]]; [| congruence]. split; [| now left].
      now apply (ctx_done_derive (ctxs s) (Some background_ctx) (Some drain_timeout)).
    + destruct Hge as [H1 H2]. split; [assumption | discriminate].
  - destruct (main s); try assumption.
    destruct Hm as (_ & _ & _ & _ & a & b & Ha & _). congruence.
Qed.

Lemma inv_sequencer_exit s d o cerr :
  inv s -> seq s = SeqDraining d -> inv (sequencer_exit d o cerr s).
Proof.
  intros H Hs. unfold sequencer_exit.
  destruct (inv_draining_fresh s d H Hs) as (F0 & F1 & F2 & F3).
  assert (Hseq := inv_seq _ H). rewrite Hs in Hseq.
  destruct Hseq as (Hc & Hn & Hd & Hsh).
  assert (Hst : exists r st1, srv_Shutdown_end d o (ctxs s) = (r, st1) /\
            ctx_inv st1 (accepted s) /\
            (forall c, ctx_done (ctxs s) c = true -> ctx_done st1 c = true)).
  { destruct o; simpl; eexists; eexists; (split; [reflexivity |]); split;
      try apply (inv_ctx _ H); try (now auto).
    - apply ctx_inv_cancel; [apply (inv_ctx _ H) | assumption].
    - intros c Hcd. now apply cancel_keeps_done. }
  destruct Hst as (r & st1 & -> & Hctx1 & Hmono).
  destruct H as [Hctx Hsig Hgrp Hf Hseq Hge Hls Hm].
  split; simpl; try assumption.
  - now apply ctx_inv_cancel.
  - repeat split; [congruence | ].
    apply cancel_keeps_done. now apply Hmono.
  - destruct (g_err s) as [e |].
    + destruct Hge as [H1 [H2 | H2]]; [| congruence]. split; [| now left].
      apply cancel_keeps_done. now apply Hmono.
    + destruct Hge as [H1 H2]. split; [assumption | discriminate].
  - destruct (main s); try assumption.
    destruct Hm as (_ & _ & _ & _ & a & b & Ha & _). congruence.
Qed.

Lemma inv_return s a b :
  inv s -> main s = MainWaiting -> seq s = SeqDone a -> lsn s = SrvDone b ->
  inv (RunServer_return s).
Proof.
  intros H Hm Hs Hl. unfold RunServer_return.
  assert (H1 : inv (with_ctxs (cancel (grp_ctx s) (Sentinel Canceled) (ctxs s)) s)).
  { apply inv_cancel; [assumption | rewrite (inv_grp _ H); discriminate |].
    intros d Hd. congruence. }
  assert (H2 := inv_cancel _ (sig_ctx s) (Sentinel Canceled) H1).
  simpl in H2.
  assert (Hlt := sig_lt _ H).
  destruct H2 as [Hctx Hsig Hgrp Hf Hseq Hge Hls Hmn].
  { rewrite (inv_sig _ H). discriminate. }
  { intros d Hd. congruence. }
  simpl in *. split; simpl; try assumption.
  rewrite Hm in Hmn. destruct Hmn as [_ Hr]. rewrite Hr.
  repeat split.
  - apply cancel_self_done. now rewrite cancel_length.
  - eauto.
Qed.

(** Every step keeps the invariant. *)
Lemma inv_step l s s' : inv s -> step l s = Some s' -> inv s'.
Proof.
  intros H Hst. unfold step in Hst.
  destruct (main s) eqn:Hm; try discriminate.
  destruct l.
  - (* Signal *)
    destruct (existsb (signal_eqb sg) (signals s)); injection Hst as <-.
    + apply inv_cancel; [assumption | rewrite (inv_sig _ H); discriminate |].
      intros d Hd. destruct (inv_draining_fresh s d H Hd) as (_ & _ & F & _).
      congruence.
    + destruct H. split; simpl; auto.
  - (* CancelBase *)
    injection Hst as <-.
    apply inv_cancel; [assumption | discriminate |].
    intros d Hd. destruct (inv_draining_fresh s d H Hd) as (_ & F & _ & _).
    congruence.
  - (* ExternalClose *)
    injection Hst as <-. destruct H as [Hctx Hsig Hgrp Hf Hseq Hge Hls Hmn].
    split; simpl; try assumption.
    destruct (seq s); tauto.
  - (* Accept *)
    destruct (lsn s); try discriminate.
    destruct (inShutdown (srv s)); [discriminate |].
    injection Hst as <-. now apply inv_accept.
  - (* ServeExit *)
    destruct (lsn s) eqn:Hl; try discriminate. injection Hst as <-.
    destruct H as [Hctx Hsig Hgrp Hf Hseq Hge Hls Hmn].
    split; simpl; try assumption.
    + destruct (g_err s) as [e0 |].
      * destruct Hge as [H1 [H2 | H2]]; [congruence | auto].
      * destruct Hge as [H1 H2]. split; [discriminate | assumption].
    + intros x Hx. injection Hx as <-.
      destruct (inShutdown (srv s)); discriminate.
    + rewrite Hm in *. assumption.
  - (* ServeRecord *)
    destruct (lsn s) eqn:Hl; try discriminate. injection Hst as <-.
    now apply inv_serve_record.
  - (* SeqWake *)
    destruct (seq s) eqn:Hs; try discriminate.
    eapply inv_sequencer_wake; eauto.
  - (* ShutdownExit *)
    destruct (seq s) eqn:Hs; try discriminate. injection Hst as <-.
    now apply inv_sequencer_exit.
  - (* SeqRecord *)
    destruct (seq s) as [| d | [r |] | r] eqn:Hs; try discriminate;
      injection Hst as <-.
    + now apply inv_seq_record.
    + destruct H. split; simpl; auto.
  - (* Wait *)
    destruct (seq s) eqn:Hs; try discriminate.
    destruct (lsn s) eqn:Hl; try discriminate. injection Hst as <-.
    eapply inv_return; eauto.
Qed.

(** Every state of every run satisfies the invariant. *)
Lemma inv_run ls : forall s s', inv s -> run ls s = Some s' -> inv s'.
Proof.
  induction ls as [| l rest IH]; simpl; intros s s' H Hr.
  - now injection Hr as <-.
  - destruct (step l s) as [s1 |] eqn:E; [| discriminate].
    eapply IH; [| eassumption]. eapply inv_step; eauto.
Qed.

Lemma inv_reach inp ls s : run ls (setup inp) = Some s -> inv s.
Proof. apply inv_run, inv_setup. Qed.

End Reachability.

(* ================================================================== *)
(** ** The outcome of a run *)
(* ================================================================== *)

Section Outcome.

Lemma RunServer_result_closed e :
  errors_Is e ErrServerClosed = true -> RunServer_result (Some e) = None.
Proof. intros H. unfold RunServer_result. now rewrite H. Qed.

Lemma RunServer_result_genuine e :
  errors_Is e ErrServerClosed = false -> RunServer_result (Some e) = Some e.
Proof. intros H. unfold RunServer_result. now rewrite H. Qed.

Lemma RunServer_result_never_closed err e :
  RunServer_result err = Some e -> errors_Is e ErrServerClosed = false.
Proof.
  unfold RunServer_result. destruct err as [x |]; [| discriminate].
  destruct (errors_Is x ErrServerClosed) eqn:E; simpl; [discriminate |].
  intros H. injection H as <-. assumption.
Qed.

(** What a returned run returned: lines 66-69 applied to the group's
    error, which is the result of one of the two goroutines. *)
Lemma returned_outcome inp ls s out :
  run ls (setup inp) = Some s -> main s = MainReturned out ->
  out = RunServer_result (g_err s) /\
  exists a b, seq s = SeqDone a /\ lsn s = SrvDone (Some b) /\
              (g_err s = Some b \/ g_err s = a).
Proof.
  intros Hr Hm. assert (H := inv_reach _ _ _ Hr).
  assert (Hmn := inv_main _ H). rewrite Hm in Hmn.
  destruct Hmn as (_ & _ & Hout & _ & a & b & Ha & Hb).
  split; [assumption |].
  assert (Hb' : b <> None)
    by (apply (inv_lsn _ H); unfold serve_result; now rewrite Hb).
  destruct b as [b |]; [| contradiction].
  exists a, b. repeat split; try assumption.
  assert (Hg := inv_gerr _ H).
  destruct (g_err s) as [e |].
  - destruct Hg as [_ [Hl | Hs]]; [left | right]; congruence.
  - destruct Hg as [Hl _]. specialize (Hl _ Hb). discriminate.
Qed.

(** The labels keep what they do when the result of [srv.Close()] is
    forgotten. *)
Lemma step_forget_close l s : step (forget_close l) s = step l s.
Proof. destruct l; reflexivity. Qed.

Lemma run_forget_close ls : forall s, run (map forget_close ls) s = run ls s.
Proof.
  induction ls as [| l rest IH]; intros s; simpl; [reflexivity |].
  rewrite step_forget_close. destruct (step l s); [apply IH | reflexivity].
Qed.



End Outcome.

(* ================================================================== *)
(** ** Properties of RunServer *)
(* ================================================================== *)

(** C1. Whenever the error the group reports is or wraps
    http.ErrServerClosed, [RunServer] returns nil; no run returns an error
    that is or wraps it; and a run in which the serve operation returned
    http.ErrServerClosed and [srv.Shutdown] returned nil returns nil. *)
Theorem C1_server_closed_is_success :
  forall inp ls s out,
    run ls (setup inp) = Some s -> main s = MainReturned out ->
    (forall e, g_err s = Some e -> errors_Is e ErrServerClosed = true ->
               out = None) /\
    (forall e, out = Some e -> errors_Is e ErrServerClosed = false) /\
    (serve_result s = Some (Some (Sentinel ErrServerClosed)) ->
     seq_result s = Some (Ret None) -> out = None).
Proof.
  intros inp ls s out Hr Hm.
  destruct (returned_outcome _ _ _ _ Hr Hm) as (Hout & a & b & Ha & Hb & Hg).
  repeat split.
  - intros e He Hc. rewrite Hout, He. now apply RunServer_result_closed.
  - intros e He. rewrite Hout in He.
    eapply RunServer_result_never_closed; eauto.
  - unfold serve_result, seq_result. rewrite Ha, Hb. intros Hs Hq.
    injection Hs as ->. injection Hq as ->.
    rewrite Hout. destruct Hg as [-> | ->]; reflexivity.
Qed.

Lemma C1_witness :
  exists s out, run run_self_close (setup plain_input) = Some s /\
                main s = MainReturned out /\ out = None.
Proof.
  assert (Hr : exists s, run run_self_close (setup plain_input) = Some s /\
                 main s = MainReturned None /\
                 serve_result s = Some (Some (Sentinel ErrServerClosed)) /\
                 seq_result s = Some (Ret None)).
  { vm_compute. eexists. repeat split. }
  destruct Hr as (s & Hr & Hm & Hs & Hq).
  exists s, None. split; [exact Hr |]. split; [exact Hm |].
  exact (proj2 (proj2 (C1_server_closed_is_success _ _ _ _ Hr Hm)) Hs Hq).
Defined.

(** C10. The test of lines 66-69 looks through the whole unwrap tree and
    not at where the error came from: an error with http.ErrServerClosed
    anywhere in its tree becomes nil, and in every returned run whose
    group error is such an error, be it the result of the serve operation
    or of the graceful shutdown, [RunServer] returns nil. *)
Theorem C10_closed_anywhere_in_chain :
  (forall e, in_chain (Sentinel ErrServerClosed) e ->
             RunServer_result (Some e) = None) /\
  (forall inp ls s out e,
     run ls (setup inp) = Some s -> main s = MainReturned out ->
     g_err s = Some e -> in_chain (Sentinel ErrServerClosed) e ->
     out = None /\
     (serve_result s = Some (Some e) \/ seq_result s = Some (Ret (Some e)))).
Proof.
  split.
  - intros e He. apply RunServer_result_closed. now apply errors_Is_in_chain.
  - intros inp ls s out e Hr Hm Hg He.
    destruct (returned_outcome _ _ _ _ Hr Hm) as (Hout & a & b & Ha & Hb & Hab).
    split.
    + rewrite Hout, Hg. apply RunServer_result_closed.
      now apply errors_Is_in_chain.
    + unfold serve_result, seq_result. rewrite Ha, Hb.
      rewrite Hg in Hab. destruct Hab as [Hab | Hab].
      * injection Hab as ->. now left.
      * subst a. now right.
Qed.

Lemma C10_witness :
  exists s out, run run_sigterm_timeout (setup plain_input) = Some s /\
                main s = MainReturned out /\ out = None.
Proof.
  assert (Hr : exists s, run run_sigterm_timeout (setup plain_input) = Some s /\
                 main s = MainReturned None /\
                 g_err s = Some (Sentinel ErrServerClosed)).
  { vm_compute. eexists. repeat split. }
  destruct Hr as (s & Hr & Hm & Hg).
  exists s, None. split; [exact Hr |]. split; [exact Hm |].
  exact (proj1 (proj2 C10_closed_anywhere_in_chain _ _ _ _ _ Hr Hm Hg
                  (chain_here _))).
Defined.

(** What errors.Is does on a wrapped and on a joined error. *)
Example errors_Is_wrapped :
  errors_Is (Wrap "serve" (Join [Opaque "x"; Sentinel ErrServerClosed]))
            ErrServerClosed = true.
Proof. reflexivity. Qed.

Example errors_Is_other :
  errors_Is (Wrap "serve" (Sentinel DeadlineExceeded)) ErrServerClosed = false.
Proof. reflexivity. Qed.

Section Progress.

Lemma run_cons l rest s :
  run (l :: rest) s =
  match step l s with Some s' => run rest s' | None => None end.
Proof. reflexivity. Qed.

Lemma step_keeps_g_err l s s' e :
  step l s = Some s' -> g_err s = Some e -> g_err s' = Some e.
Proof.
  unfold step. destruct (main s); try discriminate.
  intros H Hg. destruct l.
  - destruct (existsb _ _); injection H as <-; assumption.
  - injection H as <-; assumption.
  - injection H as <-; assumption.
  - destruct (lsn s); try discriminate.
    destruct (inShutdown (srv s)); [discriminate |].
    injection H as <-. unfold accept.
    destruct (BaseContext (srv s)); assumption.
  - destruct (lsn s); try discriminate. injection H as <-; assumption.
  - destruct (lsn s); try discriminate. injection H as <-.
    destruct (group_record_cases r s) as [[-> _] | (x & _ & Hn & _)];
      [assumption | congruence].
  - destruct (seq s); try discriminate. unfold sequencer_wake in H.
    destruct (ctx_done _ _); [| discriminate]. injection H as <-; assumption.
  - destruct (seq s); try discriminate. injection H as <-.
    unfold sequencer_exit. destruct (srv_Shutdown_end _ _ _). assumption.
  - destruct (seq s) as [| d | [r |] | r]; try discriminate;
      injection H as <-; [| assumption].
    destruct (group_record_cases r s) as [[-> _] | (x & _ & Hn & _)];
      [assumption | congruence].
  - destruct (seq s); try discriminate. destruct (lsn s); try discriminate.
    injection H as <-; assumption.
Qed.

(** The group's error is set once. *)
Lemma run_keeps_g_err ls : forall s s' e,
  run ls s = Some s' -> g_err s = Some e -> g_err s' = Some e.
Proof.
  induction ls as [| l rest IH]; simpl; intros s s' e H Hg.
  - now injection H as <-.
  - destruct (step l s) as [s1 |] eqn:E; [| discriminate].
    eapply IH; eauto. eapply step_keeps_g_err; eauto.
Qed.

Lemma wake_enabled s :
  main s = MainWaiting -> seq s = SeqWaiting ->
  ctx_done (ctxs s) (grp_ctx s) = true ->
  exists s' d, step SeqWake s = Some s' /\ main s' = MainWaiting /\
               seq s' = SeqDraining d /\ lsn s' = lsn s /\ g_err s' = g_err s.
Proof.
  intros Hm Hs Hd. unfold step, sequencer_wake. rewrite Hm, Hs, Hd.
  simpl. eexists. eexists. repeat split. assumption.
Qed.

Lemma shutdown_exit_enabled s d o cerr :
  main s = MainWaiting -> seq s = SeqDraining d ->
  exists s', step (ShutdownExit o cerr) s = Some s' /\ main s' = MainWaiting /\
             seq s' = SeqExited (fst (srv_Shutdown_end d o (ctxs s))) /\
             lsn s' = lsn s /\ g_err s' = g_err s /\
             seq_closes s' = S (seq_closes s).
Proof.
  intros Hm Hs. unfold step, sequencer_exit. rewrite Hm, Hs.
  destruct (srv_Shutdown_end d o (ctxs s)) as [r st1]. simpl.
  eexists. repeat split. assumption.
Qed.

Lemma seq_record_enabled s r :
  main s = MainWaiting -> seq s = SeqExited (Ret r) ->
  exists s', step SeqRecord s = Some s' /\ main s' = MainWaiting /\
             seq s' = SeqDone r /\ lsn s' = lsn s /\
             (forall e, g_err s = Some e -> g_err s' = Some e).
Proof.
  intros Hm Hs. unfold step. rewrite Hm, Hs.
  eexists. split; [reflexivity |].
  destruct (group_record_cases r s) as [[-> _] | (x & _ & Hn & ->)]; simpl;
    repeat split; try assumption; auto.
  intros e He. congruence.
Qed.

Lemma wait_enabled s a b :
  main s = MainWaiting -> seq s = SeqDone a -> lsn s = SrvDone b ->
  exists s', step Wait s = Some s' /\
             main s' = MainReturned (RunServer_result (g_err s)).
Proof.
  intros Hm Hs Hl. unfold step. rewrite Hm, Hs, Hl.
  eexists. split; reflexivity.
Qed.

(** Once the serve goroutine is done and the group context is
    cancelled, the run ends by itself, unless [srv.Shutdown] has
    panicked. *)
Lemma finish_schedule_returns s e b :
  inv s -> main s = MainWaiting -> lsn s = SrvDone b -> g_err s = Some e ->
  seq s <> SeqExited Panic ->
  exists sf, run (finish_schedule s) s = Some sf /\
             main sf = MainReturned (RunServer_result (Some e)).
Proof.
  intros H Hm Hl Hg Hp.
  assert (Hd : ctx_done (ctxs s) (grp_ctx s) = true).
  { assert (X := inv_gerr _ H). rewrite Hg in X. tauto. }
  assert (Fin : forall s3 a, main s3 = MainWaiting -> seq s3 = SeqDone a ->
            lsn s3 = SrvDone b -> g_err s3 = Some e ->
            exists sf, run [Wait] s3 = Some sf /\
              main sf = MainReturned (RunServer_result (Some e))).
  { intros s3 a M3 S3 L3 G3.
    destruct (wait_enabled s3 a b M3 S3 L3) as (sf & E & Mf).
    exists sf. rewrite run_cons, E, <- G3. auto. }
  assert (Rec : forall s2 r, main s2 = MainWaiting -> seq s2 = SeqExited (Ret r) ->
            lsn s2 = SrvDone b -> g_err s2 = Some e ->
            exists sf, run [SeqRecord; Wait] s2 = Some sf /\
              main sf = MainReturned (RunServer_result (Some e))).
  { intros s2 r M2 S2 L2 G2.
    destruct (seq_record_enabled s2 r M2 S2) as (s3 & E & M3 & S3 & L3 & G3).
    destruct (Fin s3 r M3 S3 (eq_trans L3 L2) (G3 _ G2)) as (sf & Ef & Mf).
    exists sf. rewrite run_cons, E. auto. }
  assert (Ex : forall s1 d, main s1 = MainWaiting -> seq s1 = SeqDraining d ->
            lsn s1 = SrvDone b -> g_err s1 = Some e ->
            exists sf, run [ShutdownExit TimedOut None; SeqRecord; Wait] s1 = Some sf /\
              main sf = MainReturned (RunServer_result (Some e))).
  { intros s1 d M1 S1 L1 G1.
    destruct (shutdown_exit_enabled s1 d TimedOut None M1 S1)
      as (s2 & E & M2 & S2 & L2 & G2 & _).
    simpl fst in S2.
    destruct (Rec s2 _ M2 S2 (eq_trans L2 L1) (eq_trans G2 G1)) as (sf & Ef & Mf).
    exists sf. rewrite run_cons, E. auto. }
  unfold finish_schedule. destruct (seq s) as [| d | [r |] | r] eqn:Hs.
  - destruct (wake_enabled s Hm Hs Hd) as (s1 & d & E & M1 & S1 & L1 & G1).
    destruct (Ex s1 d M1 S1 (eq_trans L1 Hl) (eq_trans G1 Hg)) as (sf & Ef & Mf).
    exists sf. rewrite run_cons, E. auto.
  - now apply (Ex s d).
  - now apply (Rec s r).
  - congruence.
  - now apply (Fin s r).
Qed.

End Progress.




(** Once http.ErrServerClosed from the serve operation is the group's
    error, whatever the sequencer returns later is dropped: every return
    is nil. *)
Lemma closed_first_masks_shutdown_error :
  forall inp pre s1,
    run pre (setup inp) = Some s1 ->
    main s1 = MainWaiting ->
    lsn s1 = SrvExited (Some (Sentinel ErrServerClosed)) ->
    g_err s1 = None ->
    forall post sf out,
      run (ServeRecord :: post) s1 = Some sf ->
      main sf = MainReturned out -> out = None.
Proof.
  intros inp pre s1 Hr Hm Hl Hg post sf out Hp Hf.
  assert (H1 := inv_reach _ _ _ Hr).
  assert (Hsf := inv_run _ _ _ H1 Hp).
  rewrite run_cons in Hp. unfold step in Hp. rewrite Hm, Hl in Hp.
  assert (Hg2 : g_err (with_lsn (SrvDone (Some (Sentinel ErrServerClosed)))
                         (group_record (Some (Sentinel ErrServerClosed)) s1))
                = Some (Sentinel ErrServerClosed)).
  { unfold group_record. rewrite Hg. reflexivity. }
  assert (X := inv_main _ Hsf). rewrite Hf in X.
  destruct X as (_ & _ & -> & _).
  now rewrite (run_keeps_g_err _ _ _ _ Hp Hg2).
Qed.

(** C5, the code at the failing input. SIGTERM arrives while a connection
    is busy; [srv.Shutdown] makes the serve operation return
    http.ErrServerClosed, which the group takes first; the drain then runs
    into its deadline and the sequencer returns the deadline error; the
    group drops it, and [RunServer] returns nil. *)
Theorem C5_drain_timeout_is_swallowed :
  RunServer plain_input run_sigterm_timeout = Some None /\
  exists s, run run_sigterm_timeout (setup plain_input) = Some s /\
            serve_result s = Some (Some (Sentinel ErrServerClosed)) /\
            seq_result s = Some (Ret (Some (Sentinel DeadlineExceeded))) /\
            g_err s = Some (Sentinel ErrServerClosed).
Proof. vm_compute. split; [reflexivity |]. eexists. repeat split. Qed.

(** C3. In every state of every run the deferred [srv.Close()] of the
    sequencer has run once if the sequencer's function has ended, whether
    it returned nil, returned an error or panicked, and not at all
    before; from inside [srv.Shutdown] every outcome leads to such an end;
    and what [srv.Close()] returns changes nothing in any run. *)
Theorem C3_force_close_exactly_once :
  forall inp ls s,
    run ls (setup inp) = Some s ->
    (forall r, seq_result s = Some r -> seq_closes s = 1) /\
    (seq_result s = None -> seq_closes s = 0) /\
    (forall d o cerr,
       main s = MainWaiting -> seq s = SeqDraining d ->
       exists s', step (ShutdownExit o cerr) s = Some s' /\
                  seq_closes s' = 1 /\
                  seq_result s' = Some (fst (srv_Shutdown_end d o (ctxs s))) /\
                  step (ShutdownExit o None) s = Some s') /\
    (forall ls', run (map forget_close ls') (setup inp) = run ls' (setup inp)).
Proof.
  intros inp ls s Hr. assert (H := inv_reach _ _ _ Hr).
  assert (Hs := inv_seq _ H). unfold seq_result.
  repeat split.
  - intros r. destruct (seq s); try discriminate; tauto.
  - destruct (seq s); try discriminate; tauto.
  - intros d o cerr Hm Hd. rewrite Hd in Hs.
    destruct (shutdown_exit_enabled s d o cerr Hm Hd)
      as (s' & E & _ & S' & _ & _ & C').
    exists s'. split; [assumption |]. split; [| split].
    + destruct Hs as [Hc _]. now rewrite Hc in C'.
    + now rewrite S'.
    + rewrite <- E. apply (step_forget_close (ShutdownExit o cerr)).
  - intros ls'. apply run_forget_close.
Qed.

Lemma C3_witness :
  exists s, run [Signal SIGTERM; SeqWake; ShutdownExit Panicked (Some (Opaque "close"))]
                (setup plain_input) = Some s /\
            seq_result s = Some Panic /\ seq_closes s = 1.
Proof.
  assert (Hr : exists s,
             run [Signal SIGTERM; SeqWake; ShutdownExit Panicked (Some (Opaque "close"))]
                 (setup plain_input) = Some s /\
             seq_result s = Some Panic).
  { vm_compute. eexists. split; reflexivity. }
  destruct Hr as (s & Hr & Hq).
  exists s. split; [exact Hr |]. split; [exact Hq |].
  exact (proj1 (C3_force_close_exactly_once _ _ _ Hr) Panic Hq).
Defined.

(** C4. The sequencer leaves [<-ctx.Done()] only when the group context
    is done, and can leave it as soon as it is. It then calls
    [srv.Shutdown] with a context that is a child of context.Background,
    carries the deadline of 3 seconds, is not done and does not descend
    from the group context. What [srv.Shutdown] returns is what the
    sequencer's function returns: what closing the listeners gave when
    the drain ended in time, context.DeadlineExceeded when it did not. *)
Theorem C4_sequencer_drains_with_fresh_deadline :
  forall inp ls s,
    run ls (setup inp) = Some s ->
    (forall s', step SeqWake s = Some s' ->
       ctx_done (ctxs s) (grp_ctx s) = true /\
       exists d, seq s' = SeqDraining d /\
         node_at (ctxs s') d =
           Some (mkNode (Some background_ctx) None (Some 3000000000%Z)) /\
         descends (ctxs s') d (grp_ctx s') = false) /\
    (main s = MainWaiting -> seq s = SeqWaiting ->
     ctx_done (ctxs s) (grp_ctx s) = true ->
     exists s', step SeqWake s = Some s') /\
    (forall d o cerr s',
       seq s = SeqDraining d -> step (ShutdownExit o cerr) s = Some s' ->
       ctx_done (ctxs s) (grp_ctx s) = true /\
       ctx_done (ctxs s) d = false /\
       seq_result s' =
         Some match o with
              | Drained lnerr => Ret lnerr
              | TimedOut => Ret (Some (Sentinel DeadlineExceeded))
              | Panicked => Panic
              end).
Proof.
  intros inp ls s Hr. assert (H := inv_reach _ _ _ Hr).
  repeat split.
  - unfold step, sequencer_wake in H0.
    destruct (main s); try discriminate. destruct (seq s); try discriminate.
    destruct (ctx_done (ctxs s) (grp_ctx s)); [reflexivity | discriminate].
  - assert (H' := inv_step _ _ _ H H0).
    assert (Hd : exists d, seq s' = SeqDraining d).
    { unfold step, sequencer_wake in H0.
      destruct (main s); try discriminate. destruct (seq s); try discriminate.
      destruct (ctx_done (ctxs s) (grp_ctx s)); [| discriminate].
      injection H0 as <-. eexists. reflexivity. }
    destruct Hd as (d & Hd). exists d. split; [assumption |].
    assert (Hs := inv_seq _ H'). rewrite Hd in Hs.
    destruct Hs as (_ & Hn & _). split; [exact Hn |].
    rewrite (descends_child_of_root _ _ (grp_ctx s') _ background_ctx
               (mkNode None None None) (ci_ok _ _ (inv_ctx _ H')) Hn eq_refl
               (ci_bg _ _ (inv_ctx _ H')) eq_refl).
    destruct (inv_draining_fresh s' d H' Hd) as (_ & _ & _ & F).
    rewrite (inv_grp _ H') in *.
    apply orb_false_iff. split; apply Nat.eqb_neq; [assumption | discriminate].
  - intros Hm Hs Hd.
    destruct (wake_enabled s Hm Hs Hd) as (s' & d & E & _). eauto.
  - assert (Hs := inv_seq _ H). rewrite H0 in Hs. tauto.
  - assert (Hs := inv_seq _ H). rewrite H0 in Hs.
    destruct Hs as (_ & Hn & _). unfold ctx_done, ctx_Err. now rewrite Hn.
  - assert (Hs := inv_seq _ H). rewrite H0 in Hs. destruct Hs as (_ & Hn & _).
    unfold step in H1. destruct (main s); try discriminate.
    rewrite H0 in H1. injection H1 as <-.
    unfold seq_result, sequencer_exit. destruct o; simpl; try reflexivity.
    rewrite cancel_self_err; [reflexivity | eapply node_at_lt; eauto |].
    unfold ctx_Err. now rewrite Hn.
Qed.

Lemma C4_witness :
  exists s s', run [SeqWake] (setup cancelled_input) = Some s /\
               step (ShutdownExit TimedOut None) s = Some s' /\
               seq_result s' = Some (Ret (Some (Sentinel DeadlineExceeded))).
Proof.
  assert (Hr : exists s s', run [SeqWake] (setup cancelled_input) = Some s /\
                 seq s = SeqDraining 4 /\
                 step (ShutdownExit TimedOut None) s = Some s').
  { vm_compute. eexists. eexists. repeat split. }
  destruct Hr as (s & s' & Hr & Hd & Hs).
  exists s, s'. split; [exact Hr |]. split; [exact Hs |].
  exact (proj2 (proj2 (proj2 (proj2
           (C4_sequencer_drains_with_fresh_deadline _ _ _ Hr))
           4 TimedOut None s' Hd Hs))).
Defined.

Section Bootstrap.

Variable toASCII : string -> option string.


End Bootstrap.




Example C9_example :
  admits Some (HostPolicy (new_manager example_cfg)) "example.org" /\
  ~ admits Some (HostPolicy (new_manager example_cfg)) "evil.example.org".
Proof. split; [reflexivity | discriminate]. Qed.


(** C7. The context of line 40 is a child of the caller's context and the
    only signal relayed to it is SIGTERM; the group context is its child.
    While [RunServer] waits, SIGTERM and the cancellation of the caller's
    context each leave both contexts done, and a caller's context that is
    done at the call makes them done from the start, so that the sequencer
    can leave [<-ctx.Done()] at once. The stop function of line 40 has
    not run while [RunServer] waits and has run once, ending the relay,
    whenever [RunServer] has returned. *)
Theorem C7_signal_context :
  forall inp,
    (exists n, node_at (ctxs (setup inp)) (sig_ctx (setup inp)) = Some n /\
               parent n = Some base_ctx) /\
    (exists n, node_at (ctxs (setup inp)) (grp_ctx (setup inp)) = Some n /\
               parent n = Some (sig_ctx (setup inp))) /\
    signals (setup inp) = [SIGTERM] /\
    (base_err inp <> None ->
     ctx_done (ctxs (setup inp)) (sig_ctx (setup inp)) = true /\
     ctx_done (ctxs (setup inp)) (grp_ctx (setup inp)) = true /\
     exists s', step SeqWake (setup inp) = Some s') /\
    (forall ls s,
       run ls (setup inp) = Some s ->
       (main s = MainWaiting ->
        signals s = [SIGTERM] /\ releases s = 0 /\
        (exists s', step (Signal SIGTERM) s = Some s' /\
                    main s' = MainWaiting /\
                    ctx_done (ctxs s') (sig_ctx s') = true /\
                    ctx_done (ctxs s') (grp_ctx s') = true) /\
        (forall e, exists s', step (CancelBase e) s = Some s' /\
                    main s' = MainWaiting /\
                    ctx_done (ctxs s') (sig_ctx s') = true /\
                    ctx_done (ctxs s') (grp_ctx s') = true)) /\
       (forall out, main s = MainReturned out ->
                    signals s = [] /\ releases s = 1 /\
                    ctx_done (ctxs s) (sig_ctx s) = true)).
Proof.
  intros inp.
  split; [| split; [| split; [| split]]].
  - unfold setup. destruct (setup_tls _ _). simpl. eexists. split; reflexivity.
  - unfold setup. destruct (setup_tls _ _). simpl. eexists. split; reflexivity.
  - unfold setup. destruct (setup_tls _ _). reflexivity.
  - intros Hb. assert (H := inv_setup inp).
    assert (Hbase : ctx_done (ctxs (setup inp)) base_ctx = true).
    { unfold setup. destruct (setup_tls _ _). unfold ctx_done, ctx_Err. simpl.
      destruct (base_err inp); [reflexivity | contradiction]. }
    assert (Hs := base_done_sig_done _ H Hbase).
    assert (Hg := sig_done_grp_done _ H Hs).
    split; [assumption |]. split; [assumption |].
    destruct (wake_enabled (setup inp)) as (s' & d & E & _); try assumption.
    + unfold setup. destruct (setup_tls _ _). reflexivity.
    + unfold setup. destruct (setup_tls _ _). reflexivity.
    + eauto.
  - intros ls s Hr. assert (H := inv_reach _ _ _ Hr). split.
    + intros Hm. assert (X := inv_main _ H). rewrite Hm in X.
      destruct X as [Hsg Hrl]. split; [assumption |]. split; [assumption |].
      split.
      * assert (Hst : step (Signal SIGTERM) s =
                  Some (with_ctxs (cancel (sig_ctx s) (Sentinel Canceled) (ctxs s)) s)).
        { unfold step. rewrite Hm, Hsg. reflexivity. }
        assert (H' := inv_step _ _ _ H Hst).
        eexists. split; [exact Hst |]. split; [exact Hm |].
        assert (Hd : ctx_done (ctxs (with_ctxs (cancel (sig_ctx s) (Sentinel Canceled)
                                      (ctxs s)) s))
                       (sig_ctx (with_ctxs (cancel (sig_ctx s) (Sentinel Canceled)
                                      (ctxs s)) s)) = true).
        { apply cancel_self_done. exact (sig_lt _ H). }
        split; [exact Hd |]. now apply sig_done_grp_done.
      * intros e.
        assert (Hst : step (CancelBase e) s =
                  Some (with_ctxs (cancel base_ctx e (ctxs s)) s)).
        { unfold step. now rewrite Hm. }
        assert (H' := inv_step _ _ _ H Hst).
        eexists. split; [exact Hst |]. split; [exact Hm |].
        assert (Hd : ctx_done (ctxs (with_ctxs (cancel base_ctx e (ctxs s)) s))
                       base_ctx = true).
        { apply cancel_self_done.
          destruct (ci_base _ _ (inv_ctx _ H)) as (n & Hn & _).
          eapply node_at_lt; eauto. }
        assert (Hsd := base_done_sig_done _ H' Hd).
        split; [exact Hsd |]. now apply sig_done_grp_done.
    + intros out Hm. assert (X := inv_main _ H). rewrite Hm in X. tauto.
Qed.

Lemma C7_witness :
  ctx_done (ctxs (setup cancelled_input)) (grp_ctx (setup cancelled_input)) = true.
Proof.
  assert (Hb : base_err cancelled_input <> None) by discriminate.
  exact (proj1 (proj2 (proj1 (proj2 (proj2 (proj2
           (C7_signal_context cancelled_input)))) Hb))).
Defined.

(** C8. When the two goroutines have not taken a step yet, the server's
    BaseContext is a function that returns the group context for every
    listener, and it stays so. In every state of every run the context of
    every accepted connection is a child of the group context, and is
    done whenever the group context is done. *)
Theorem C8_connections_follow_group_context :
  forall inp,
    seq (setup inp) = SeqWaiting /\ lsn (setup inp) = SrvServing /\
    main (setup inp) = MainWaiting /\
    (exists f, BaseContext (srv (setup inp)) = Some f /\
               forall ln, f ln = grp_ctx (setup inp)) /\
    (forall ls s,
       run ls (setup inp) = Some s ->
       (exists f, BaseContext (srv s) = Some f /\ forall ln, f ln = grp_ctx s) /\
       (forall c, In c (accepted s) ->
          (exists n, node_at (ctxs s) c = Some n /\ parent n = Some (grp_ctx s)) /\
          (ctx_done (ctxs s) (grp_ctx s) = true -> ctx_done (ctxs s) c = true)) /\
       (forall ln s', step (Accept ln) s = Some s' ->
          exists c, accepted s' = c :: accepted s /\
                    ctx_Err (ctxs s') c = ctx_Err (ctxs s) (grp_ctx s))).
Proof.
  intros inp.
  split; [| split; [| split; [| split]]];
    try (unfold setup; destruct (setup_tls _ _); reflexivity).
  - apply (inv_factory _ (inv_setup inp)).
  - intros ls s Hr. assert (H := inv_reach _ _ _ Hr).
    split; [apply (inv_factory _ H) |]. split.
    + intros c Hc.
      destruct (ci_acc _ _ (inv_ctx _ H) c Hc) as (n & Hn & Hp).
      rewrite (inv_grp _ H). split; [eauto |].
      intros Hd. eapply child_done; eauto. apply (ci_ok _ _ (inv_ctx _ H)).
    + intros ln s' Hst. unfold step in Hst.
      destruct (main s); try discriminate. destruct (lsn s); try discriminate.
      destruct (inShutdown (srv s)); [discriminate |].
      injection Hst as <-. unfold accept.
      destruct (inv_factory _ H) as (f & -> & Hf). rewrite Hf.
      exists (List.length (ctxs s)). split; [reflexivity |].
      unfold ctx_Err at 1. simpl. now rewrite Nat.eqb_refl.
Qed.

Lemma C8_witness :
  exists s, run [Accept 0; Accept 1; Signal SIGTERM] (setup plain_input) = Some s /\
            In 4 (accepted s) /\ ctx_done (ctxs s) 4 = true.
Proof.
  assert (Hr : exists s,
             run [Accept 0; Accept 1; Signal SIGTERM] (setup plain_input) = Some s /\
             accepted s = [5; 4] /\ ctx_done (ctxs s) (grp_ctx s) = true).
  { vm_compute. eexists. repeat split. }
  destruct Hr as (s & Hr & Ha & Hd).
  assert (Hin : In 4 (accepted s)) by (rewrite Ha; simpl; auto).
  exists s. split; [exact Hr |]. split; [exact Hin |].
  exact (proj2 (proj1 (proj2 (proj2 (proj2 (proj2 (proj2
           (C8_connections_follow_group_context plain_input)))) _ _ Hr)) 4 Hin) Hd).
Defined.

(* ================================================================== *)
(** ** More about a run *)
(* ================================================================== *)

(** Splits a conjunction, and nothing else. *)
Ltac conjs := repeat match goal with |- _ /\ _ => split end.

Section RunFacts.

Lemma run_app l1 : forall l2 s,
  run (l1 ++ l2)%list s =
  match run l1 s with Some s' => run l2 s' | None => None end.
Proof.
  induction l1 as [| l rest IH]; intros l2 s; simpl; [reflexivity |].
  destruct (step l s); [apply IH | reflexivity].
Qed.

Lemma ctx_Err_lt st c x : ctx_Err st c = Some x -> c < List.length st.
Proof.
  unfold ctx_Err. destruct (node_at st c) eqn:E; [| discriminate].
  intros _. eapply node_at_lt; eauto.
Qed.

Lemma derive_keeps_err st p d c x :
  ctx_Err st c = Some x -> ctx_Err (fst (derive st p d)) c = Some x.
Proof.
  intros H. simpl. rewrite ctx_Err_cons_old; [assumption |].
  eapply ctx_Err_lt; eauto.
Qed.

(** No step changes the error of a context that is done. *)
Lemma step_keeps_ctx_Err l s s' c x :
  step l s = Some s' -> ctx_Err (ctxs s) c = Some x ->
  ctx_Err (ctxs s') c = Some x.
Proof.
  unfold step. destruct (main s); try discriminate.
  intros H Hc. destruct l.
  - destruct (existsb _ _); injection H as <-; simpl;
      [now apply cancel_keeps_err | assumption].
  - injection H as <-. simpl. now apply cancel_keeps_err.
  - injection H as <-. assumption.
  - destruct (lsn s); try discriminate.
    destruct (inShutdown (srv s)); [discriminate |].
    injection H as <-. unfold accept.
    destruct (BaseContext (srv s)) as [f |]; simpl;
      rewrite ctx_Err_cons_old; try assumption; eapply ctx_Err_lt; eauto.
  - destruct (lsn s); try discriminate. injection H as <-. assumption.
  - destruct (lsn s); try discriminate. injection H as <-.
    destruct (group_record_cases r s) as [[-> _] | (e & _ & _ & ->)]; simpl;
      [assumption | now apply cancel_keeps_err].
  - destruct (seq s); try discriminate. unfold sequencer_wake in H.
    destruct (ctx_done _ _); [| discriminate]. injection H as <-. simpl.
    rewrite ctx_Err_cons_old; [assumption | eapply ctx_Err_lt; eauto].
  - destruct (seq s); try discriminate. injection H as <-.
    unfold sequencer_exit. destruct o; simpl;
      repeat apply cancel_keeps_err; assumption.
  - destruct (seq s) as [| d | [r |] | r]; try discriminate;
      injection H as <-; [| assumption].
    destruct (group_record_cases r s) as [[-> _] | (e & _ & _ & ->)]; simpl;
      [assumption | now apply cancel_keeps_err].
  - destruct (seq s); try discriminate. destruct (lsn s); try discriminate.
    injection H as <-. simpl. repeat apply cancel_keeps_err. assumption.
Qed.


(** A context that is done keeps its error to the end of the run. *)
Lemma run_keeps_ctx_Err ls : forall s s' c x,
  run ls s = Some s' -> ctx_Err (ctxs s) c = Some x ->
  ctx_Err (ctxs s') c = Some x.
Proof.
  induction ls as [| l rest IH]; simpl; intros s s' c x Hr Hc.
  - now injection Hr as <-.
  - destruct (step l s) as [s1 |] eqn:E; [| discriminate].
    eapply IH; eauto. eapply step_keeps_ctx_Err; eauto.
Qed.

Lemma signal_enabled s :
  inv s -> main s = MainWaiting ->
  exists s', step (Signal SIGTERM) s = Some s' /\ inv s' /\
             main s' = MainWaiting /\ seq s' = seq s /\ lsn s' = lsn s /\
             ctx_done (ctxs s') (grp_ctx s') = true.
Proof.
  intros H Hm. assert (X := inv_main _ H). rewrite Hm in X. destruct X as [Hsg _].
  assert (Hst : step (Signal SIGTERM) s =
            Some (with_ctxs (cancel (sig_ctx s) (Sentinel Canceled) (ctxs s)) s)).
  { unfold step. rewrite Hm, Hsg. reflexivity. }
  assert (H' := inv_step _ _ _ H Hst).
  eexists. split; [exact Hst |]. split; [exact H' |].
  split; [exact Hm |]. split; [reflexivity |]. split; [reflexivity |].
  apply sig_done_grp_done; [exact H' |].
  apply cancel_self_done. exact (sig_lt _ H).
Qed.

Lemma serve_exit_enabled s e :
  main s = MainWaiting -> lsn s = SrvServing ->
  exists s' r, step (ServeExit e) s = Some s' /\ main s' = MainWaiting /\
               lsn s' = SrvExited (Some r) /\ seq s' = seq s /\
               ctxs s' = ctxs s /\ grp_ctx s' = grp_ctx s.
Proof.
  intros Hm Hl. unfold step. rewrite Hm, Hl.
  eexists. eexists. split; [reflexivity |]. simpl. auto.
Qed.

Lemma serve_record_enabled s r :
  main s = MainWaiting -> lsn s = SrvExited r ->
  exists s', step ServeRecord s = Some s' /\ main s' = MainWaiting /\
             lsn s' = SrvDone r /\ seq s' = seq s.
Proof.
  intros Hm Hl. unfold step. rewrite Hm, Hl.
  eexists. split; [reflexivity |].
  destruct (group_record_cases r s) as [[-> _] | (x & _ & _ & ->)]; simpl; auto.
Qed.

(** With the serve goroutine done the group holds an error. *)
Lemma serve_done_group_error s b :
  inv s -> lsn s = SrvDone b -> exists e, g_err s = Some e.
Proof.
  intros H Hl. assert (Hb : b <> None)
    by (apply (inv_lsn _ H); unfold serve_result; now rewrite Hl).
  assert (Hg := inv_gerr _ H). destruct (g_err s) as [e |]; [eauto |].
  destruct Hg as [Hg _]. elim Hb. now apply Hg.
Qed.

Lemma finish_schedule_internal s :
  forallb internal (finish_schedule s) = true.
Proof. unfold finish_schedule. destruct (seq s); reflexivity. Qed.

End RunFacts.

(** X1. When [RunServer] has returned, both goroutines are done, the
    deferred [srv.Close()] has run once and the server is shut down, the
    signal context, the group context and the context of every accepted
    connection are done, no signal is relayed any more, and no further
    step of the run exists. *)
Theorem X1_state_at_return :
  forall inp ls s out,
    run ls (setup inp) = Some s -> main s = MainReturned out ->
    (exists a b, seq s = SeqDone a /\ lsn s = SrvDone (Some b)) /\
    seq_closes s = 1 /\
    inShutdown (srv s) = true /\
    ctx_done (ctxs s) (sig_ctx s) = true /\
    ctx_done (ctxs s) (grp_ctx s) = true /\
    (forall c, In c (accepted s) -> ctx_done (ctxs s) c = true) /\
    signals s = [] /\
    (forall l, step l s = None).
Proof.
  intros inp ls s out Hr Hm. assert (H := inv_reach _ _ _ Hr).
  destruct (returned_outcome _ _ _ _ Hr Hm) as (_ & a & b & Ha & Hb & _).
  assert (Hs := inv_seq _ H). rewrite Ha in Hs. destruct Hs as (Hc & Hg & Hsh).
  assert (Hmn := inv_main _ H). rewrite Hm in Hmn.
  destruct Hmn as (Hsig & _ & _ & Hsd & _).
  split; [eauto |]. split; [assumption |]. split; [assumption |].
  split; [assumption |]. split; [assumption |].
  split; [| split; [assumption |]].
  - intros c Hc'. destruct (ci_acc _ _ (inv_ctx _ H) c Hc') as (n & Hn & Hp).
    eapply child_done; eauto; [apply (ci_ok _ _ (inv_ctx _ H)) |].
    now rewrite <- (inv_grp _ H).
  - intros l. unfold step. now rewrite Hm.
Qed.

Lemma X1_witness :
  exists s, run run_self_close (setup plain_input) = Some s /\
            seq_closes s = 1 /\ inShutdown (srv s) = true.
Proof.
  assert (Hr : exists s, run run_self_close (setup plain_input) = Some s /\
                 main s = MainReturned None).
  { vm_compute. eexists. split; reflexivity. }
  destruct Hr as (s & Hr & Hm). exists s. split; [exact Hr |].
  destruct (X1_state_at_return _ _ _ _ Hr Hm) as (_ & Hc & Hsh & _).
  split; assumption.
Defined.

(** X2. When [RunServer] has returned, the group holds an error: the
    first non-nil result it was handed, which is the result of the serve
    operation or of the sequencer. [RunServer] returned nil if that error
    is or wraps http.ErrServerClosed, and that very error if not; so nil
    is only ever returned through the suppression of lines 66-69. *)
Theorem X2_outcome_is_the_first_error :
  forall inp ls s out,
    run ls (setup inp) = Some s -> main s = MainReturned out ->
    exists e,
      g_err s = Some e /\
      (serve_result s = Some (Some e) \/ seq_result s = Some (Ret (Some e))) /\
      out = (if errors_Is e ErrServerClosed then None else Some e).
Proof.
  intros inp ls s out Hr Hm. assert (H := inv_reach _ _ _ Hr).
  destruct (returned_outcome _ _ _ _ Hr Hm) as (Hout & a & b & Ha & Hb & Hab).
  destruct (serve_done_group_error s (Some b) H Hb) as (e & He).
  exists e. split; [assumption |]. split.
  - unfold serve_result, seq_result. rewrite Ha, Hb. rewrite He in Hab.
    destruct Hab as [Hab | Hab].
    + injection Hab as ->. now left.
    + subst a. now right.
  - rewrite Hout, He. unfold RunServer_result.
    destruct (errors_Is e ErrServerClosed); reflexivity.
Qed.

Lemma X2_witness :
  exists s e, run run_failure_loses_race (setup plain_input) = Some s /\
              g_err s = Some e /\
              main s = MainReturned
                         (if errors_Is e ErrServerClosed then None else Some e).
Proof.
  assert (Hr : exists s out, run run_failure_loses_race (setup plain_input) = Some s /\
                 main s = MainReturned out).
  { vm_compute. eexists. eexists. split; reflexivity. }
  destruct Hr as (s & out & Hr & Hm).
  destruct (X2_outcome_is_the_first_error _ _ _ _ Hr Hm) as (e & He & _ & Ho).
  exists s, e. split; [exact Hr |]. split; [exact He |]. now rewrite <- Ho.
Defined.

(** X3. Nothing shuts the server down but a trigger. While the caller's
    context is not done, no SIGTERM has arrived and the group has not
    taken the result of the serve operation, the group context is not
    done, the sequencer stays in [<-ctx.Done()], [srv.Close()] has not
    run, and [RunServer] has not returned, whatever else happens
    (connections accepted, the server closed by somebody else, the
    serve operation returning). *)
Theorem X3_no_shutdown_without_trigger :
  forall inp ls s,
    base_err inp = None ->
    forallb quiet ls = true ->
    run ls (setup inp) = Some s ->
    ctx_done (ctxs s) (grp_ctx s) = false /\
    seq s = SeqWaiting /\ main s = MainWaiting /\
    seq_closes s = 0 /\ g_err s = None.
Proof.
  intros inp ls s Hb Hq Hr.
  assert (Q : forall ls s0 s1,
            inv s0 -> ctx_done (ctxs s0) (grp_ctx s0) = false ->
            seq s0 = SeqWaiting -> main s0 = MainWaiting -> g_err s0 = None ->
            forallb quiet ls = true -> run ls s0 = Some s1 ->
            ctx_done (ctxs s1) (grp_ctx s1) = false /\
            seq s1 = SeqWaiting /\ main s1 = MainWaiting /\ g_err s1 = None /\
            inv s1).
  { clear. induction ls as [| l rest IH]; intros s0 s1 H Hd Hs Hm Hg Hq Hr.
    - injection Hr as <-. auto.
    - simpl in Hq. apply andb_prop in Hq. destruct Hq as [Hl Hq].
      rewrite run_cons in Hr.
      destruct (step l s0) as [s' |] eqn:E; [| discriminate].
      assert (H' := inv_step _ _ _ H E).
      assert (K : ctx_done (ctxs s') (grp_ctx s') = false /\ seq s' = SeqWaiting /\
                  main s' = MainWaiting /\ g_err s' = None).
      { unfold step in E. rewrite Hm in E.
        destruct l; try discriminate Hl.
        - injection E as <-. auto.
        - destruct (lsn s0); try discriminate.
          destruct (inShutdown (srv s0)); [discriminate |].
          injection E as <-. unfold accept.
          assert (Hlt := grp_lt _ H).
          destruct (BaseContext (srv s0)) as [f |]; simpl;
            rewrite ctx_done_cons_old by assumption; auto.
        - destruct (lsn s0); try discriminate. injection E as <-. auto.
        - rewrite Hs in E. unfold sequencer_wake in E. rewrite Hd in E.
          discriminate.
        - rewrite Hs in E. discriminate.
        - rewrite Hs in E. discriminate.
        - rewrite Hs in E. discriminate. }
      destruct K as (K1 & K2 & K3 & K4).
      eapply IH; eauto. }
  assert (H0 := inv_setup inp).
  destruct (Q ls (setup inp) s H0) as (R1 & R2 & R3 & R4 & R5); try assumption.
  - unfold setup. destruct (setup_tls _ _).
    unfold ctx_done, ctx_Err, initial_store. simpl. now rewrite Hb.
  - unfold setup. destruct (setup_tls _ _). reflexivity.
  - unfold setup. destruct (setup_tls _ _). reflexivity.
  - unfold setup. destruct (setup_tls _ _). reflexivity.
  - repeat split; try assumption.
    assert (X := inv_seq _ R5). now rewrite R2 in X.
Qed.

Lemma X3_witness :
  exists s, run [Accept 0; ExternalClose; ServeExit accept_error]
                (setup plain_input) = Some s /\
            seq s = SeqWaiting /\ main s = MainWaiting.
Proof.
  assert (Hr : exists s, run [Accept 0; ExternalClose; ServeExit accept_error]
                             (setup plain_input) = Some s).
  { vm_compute. eexists. reflexivity. }
  destruct Hr as (s & Hr). exists s. split; [exact Hr |].
  destruct (X3_no_shutdown_without_trigger plain_input
              [Accept 0; ExternalClose; ServeExit accept_error] s
              eq_refl eq_refl Hr)
    as (_ & Hs & Hm & _).
  split; assumption.
Defined.

(** X4. Cancellation is for good: a context that is done in some state
    of a run is done, with the same error, in every later state. *)
Theorem X4_cancellation_is_monotone :
  forall ls s s' c x,
    run ls s = Some s' ->
    ctx_Err (ctxs s) c = Some x ->
    ctx_Err (ctxs s') c = Some x /\ ctx_done (ctxs s') c = true.
Proof.
  intros ls s s' c x Hr Hc.
  assert (He := run_keeps_ctx_Err _ _ _ _ _ Hr Hc).
  split; [assumption |]. unfold ctx_done. now rewrite He.
Qed.

Lemma X4_witness :
  exists s, run run_sigterm_timeout (setup cancelled_input) = Some s /\
            ctx_Err (ctxs s) base_ctx = Some (Sentinel Canceled).
Proof.
  assert (Hr : exists s, run run_sigterm_timeout (setup cancelled_input) = Some s).
  { vm_compute. eexists. reflexivity. }
  destruct Hr as (s & Hr). exists s. split; [exact Hr |].
  exact (proj1 (X4_cancellation_is_monotone _ _ _ base_ctx _ Hr eq_refl)).
Defined.

(** X5. SIGTERM always ends the call. From every state of a run in which
    [RunServer] waits and [srv.Shutdown] has not panicked, SIGTERM can be
    followed by steps of the program alone (the sequencer waking, the
    serve operation returning, the drain ending at its deadline at the
    latest, the group taking the results, [threads.Wait()] returning) to
    a state in which [RunServer] has returned. *)
Theorem X5_sigterm_leads_to_return :
  forall inp ls s,
    run ls (setup inp) = Some s ->
    main s = MainWaiting ->
    seq s <> SeqExited Panic ->
    exists rest sf out,
      forallb internal rest = true /\
      run (Signal SIGTERM :: rest) s = Some sf /\
      main sf = MainReturned out.
Proof.
  intros inp ls s Hr Hm Hp. assert (H := inv_reach _ _ _ Hr).
  destruct (signal_enabled s H Hm) as (s1 & E1 & H1 & M1 & S1 & L1 & D1).
  (* the sequencer leaves its wait if it has not yet *)
  assert (W : exists w s2, forallb internal w = true /\ run w s1 = Some s2 /\
                inv s2 /\ main s2 = MainWaiting /\ lsn s2 = lsn s1 /\
                seq s2 <> SeqWaiting /\ seq s2 <> SeqExited Panic).
  { destruct (seq s1) eqn:Q.
    - destruct (wake_enabled s1 M1 Q D1) as (s2 & d & E & M2 & S2 & L2 & _).
      exists [SeqWake], s2. split; [reflexivity |].
      split; [rewrite run_cons, E; reflexivity |].
      split; [eapply inv_step; eauto |]. rewrite S2.
      conjs; try assumption; discriminate.
    - exists [], s1. conjs; try assumption; try reflexivity; congruence.
    - exists [], s1. conjs; try assumption; try reflexivity; congruence.
    - exists [], s1. conjs; try assumption; try reflexivity; congruence. }
  destruct W as (w & s2 & Iw & Rw & H2 & M2 & L2 & Nw & Np).
  (* the serve operation returns and the group takes its result *)
  assert (V : exists v s3 b, forallb internal v = true /\ run v s2 = Some s3 /\
                inv s3 /\ main s3 = MainWaiting /\ lsn s3 = SrvDone b /\
                seq s3 = seq s2).
  { destruct (lsn s2) eqn:Q.
    - destruct (serve_exit_enabled s2 accept_error M2 Q)
        as (s' & r & E & M' & L' & S' & _).
      destruct (serve_record_enabled s' (Some r) M' L') as (s3 & E3 & M3 & L3 & S3).
      exists [ServeExit accept_error; ServeRecord], s3, (Some r).
      split; [reflexivity |].
      split; [rewrite run_cons, E, run_cons, E3; reflexivity |].
      split; [eapply inv_step; [eapply inv_step |]; eauto |].
      conjs; try assumption. congruence.
    - destruct (serve_record_enabled s2 r M2 Q) as (s3 & E3 & M3 & L3 & S3).
      exists [ServeRecord], s3, r. split; [reflexivity |].
      split; [rewrite run_cons, E3; reflexivity |].
      split; [eapply inv_step; eauto |]. auto.
    - exists [], s2, r. conjs; try assumption; reflexivity. }
  destruct V as (v & s3 & b & Iv & Rv & H3 & M3 & L3 & S3).
  destruct (serve_done_group_error s3 b H3 L3) as (e & Ge).
  assert (P3 : seq s3 <> SeqExited Panic) by congruence.
  destruct (finish_schedule_returns s3 e b H3 M3 L3 Ge P3) as (sf & Rf & Mf).
  exists (w ++ v ++ finish_schedule s3)%list, sf, (RunServer_result (Some e)).
  split; [| split; [| assumption]].
  - rewrite !forallb_app, Iw, Iv. apply finish_schedule_internal.
  - rewrite run_cons, E1, run_app, Rw, run_app, Rv. assumption.
Qed.

Lemma X5_witness :
  exists rest sf out,
    forallb internal rest = true /\
    run ([Accept 0] ++ Signal SIGTERM :: rest)%list (setup plain_input) = Some sf /\
    main sf = MainReturned out.
Proof.
  assert (Hr : exists s, run [Accept 0] (setup plain_input) = Some s /\
                 main s = MainWaiting /\ seq s = SeqWaiting).
  { vm_compute. eexists. repeat split. }
  destruct Hr as (s & Hr & Hm & Hs).
  assert (Hp : seq s <> SeqExited Panic) by (rewrite Hs; discriminate).
  destruct (X5_sigterm_leads_to_return _ _ _ Hr Hm Hp)
    as (rest & sf & out & Hi & Hrun & Hf).
  exists rest, sf, out. split; [exact Hi |]. split; [| exact Hf].
  rewrite run_app, Hr. exact Hrun.
Defined.





(** X8. The error of the graceful shutdown is reported when it comes
    first. When the sequencer has returned an error that is not
    http.ErrServerClosed and the group holds no error yet, the group
    takes that error, and every way the run may go on to return returns
    it, whatever the serve operation returns afterwards. *)
Theorem X8_first_shutdown_error_is_returned :
  forall inp pre s1 e,
    run pre (setup inp) = Some s1 ->
    main s1 = MainWaiting ->
    seq s1 = SeqExited (Ret (Some e)) ->
    errors_Is e ErrServerClosed = false ->
    g_err s1 = None ->
    exists s2,
      step SeqRecord s1 = Some s2 /\
      g_err s2 = Some e /\
      (forall post sf out,
         run post s2 = Some sf -> main sf = MainReturned out -> out = Some e).
Proof.
  intros inp pre s1 e Hr Hm Hs He Hg.
  assert (H1 := inv_reach _ _ _ Hr).
  assert (Hst : step SeqRecord s1 =
                Some (with_seq (SeqDone (Some e)) (group_record (Some e) s1))).
  { unfold step. now rewrite Hm, Hs. }
  assert (H2 := inv_step _ _ _ H1 Hst).
  exists (with_seq (SeqDone (Some e)) (group_record (Some e) s1)).
  assert (Hg2 : g_err (with_seq (SeqDone (Some e)) (group_record (Some e) s1)) = Some e).
  { unfold group_record. rewrite Hg. reflexivity. }
  split; [assumption |]. split; [assumption |].
  intros post sf out Hp Hf.
  assert (Hsf := inv_run _ _ _ H2 Hp).
  assert (X := inv_main _ Hsf). rewrite Hf in X.
  destruct X as (_ & _ & -> & _).
  rewrite (run_keeps_g_err _ _ _ _ Hp Hg2).
  now apply RunServer_result_genuine.
Qed.

Lemma X8_witness :
  exists sf out, run run_timeout_recorded_first (setup plain_input) = Some sf /\
                 main sf = MainReturned out /\
                 out = Some (Sentinel DeadlineExceeded).
Proof.
  assert (Hr : exists s1 sf,
             run [Accept 0; Signal SIGTERM; SeqWake; ShutdownExit TimedOut None]
                 (setup plain_input) = Some s1 /\
             main s1 = MainWaiting /\
             seq s1 = SeqExited (Ret (Some (Sentinel DeadlineExceeded))) /\
             g_err s1 = None /\
             run run_timeout_recorded_first (setup plain_input) = Some sf /\
             run [SeqRecord; ServeExit accept_error; ServeRecord; Wait] s1 = Some sf /\
             main sf = MainReturned (Some (Sentinel DeadlineExceeded))).
  { vm_compute. eexists. eexists. repeat split. }
  destruct Hr as (s1 & sf & Hr & Hm & Hs & Hg & Hall & Hrest & Hf).
  destruct (X8_first_shutdown_error_is_returned plain_input _ s1 _
              Hr Hm Hs eq_refl Hg) as (s2 & Hst & _ & Hret).
  exists sf, (Some (Sentinel DeadlineExceeded)).
  split; [exact Hall |]. split; [exact Hf |].
  rewrite run_cons, Hst in Hrest.
  exact (Hret _ sf _ Hrest Hf).
Defined.
